(** * Temporal analysis of issue lifecycles (analyzer_two.py)

    A shallow embedding of [AnalyzerTwo]: the duration deriver
    ([calculate_issue_durations]), the label-duration aggregator
    ([issue_lifecycle_visualization]), the monthly trend counter
    ([seasonal_trends_analysis]) and the bottleneck detector
    ([bottleneck_analysis]), with the pipeline [run] that chains them.

    Conventions of the embedding.
    - Python objects live in a heap ([gmap loc Issue]); the list handed
      around by [run] is a list of references, so the in-place mutation of
      [calculate_issue_durations] is a heap update seen by the later passes.
    - An attribute that was never assigned ([duration_days]) is [None];
      reading it raises [AttributeError], [hasattr] tests it.
    - A Python [dict] is an association list in insertion order.
    - Exceptions are the [Raise] branch of [result].
    - Python's true division yields a float; the embedding keeps the exact
      rational quotient (in lowest terms), which is what the float rounds.
    - The plotting calls are a sink: a pass that reaches its [plt.show()]
      returns the data series it handed to the chart. *)

From Stdlib Require Import ZArith QArith Qreduction Permutation Sorted.
From Stdlib Require OrderedTypeEx.
From stdpp Require Import gmap strings list sorting.

Local Open Scope Z_scope.

(** ** Exceptions and results *)

Inductive exn : Type :=
| AttributeError
| ZeroDivisionError
| ValueError.

Inductive result (A : Type) : Type :=
| Return (a : A)
| Raise (e : exn).

Arguments Return {A} a.
Arguments Raise {A} e.

(** [result] is a monad; stdpp's [x ← m; k] sequences two statements and
    lets the first exception escape. *)
#[global] Instance result_ret : MRet result := λ A a, Return a.
#[global] Instance result_bind : MBind result := λ A B k m,
  match m with
  | Return a => k a
  | Raise e => Raise e
  end.

(** [for x in xs: acc = body acc x], stopping at the first exception. *)
Fixpoint for_each {A S : Type} (body : S -> A -> result S) (xs : list A) (acc : S)
  : result S :=
  match xs with
  | [] => Return acc
  | x :: xs' => acc' ← body acc x; for_each body xs' acc'
  end.

(** ** datetime and timedelta (the parts of Python's [datetime] the code uses) *)

Module datetime.

Record t : Type := mk {
  year : Z; month : Z; day : Z;
  hour : Z; minute : Z; second : Z; microsecond : Z
}.

(** [_is_leap] *)
Definition is_leap (y : Z) : bool :=
  (y mod 4 =? 0) && (negb (y mod 100 =? 0) || (y mod 400 =? 0)).

(** [_days_before_year] *)
Definition days_before_year (y : Z) : Z :=
  let y1 := y - 1 in y1 * 365 + y1 / 4 - y1 / 100 + y1 / 400.

(** [_DAYS_BEFORE_MONTH] *)
Definition DAYS_BEFORE_MONTH (m : Z) : Z :=
  match m with
  | 1 => 0 | 2 => 31 | 3 => 59 | 4 => 90 | 5 => 120 | 6 => 151
  | 7 => 181 | 8 => 212 | 9 => 243 | 10 => 273 | 11 => 304 | 12 => 334
  | _ => -1
  end.

(** [_days_before_month] *)
Definition days_before_month (y m : Z) : Z :=
  DAYS_BEFORE_MONTH m + (if (2 <? m) && is_leap y then 1 else 0).

(** [_ymd2ord] / [toordinal] *)
Definition toordinal (d : t) : Z :=
  days_before_year (year d) + days_before_month (year d) (month d) + day d.

(** A [timedelta] after normalisation: [0 <= seconds < 86400] and
    [0 <= microseconds < 10^6]; [days] carries the sign. *)
Record timedelta : Type := mk_delta {
  days : Z; seconds : Z; microseconds : Z
}.

(** [timedelta(days, seconds, microseconds)] with integer arguments: the
    constructor carries with [divmod] from microseconds up to days. *)
Definition new_timedelta (d s us : Z) : timedelta :=
  let s1 := s + us / 1000000 in
  mk_delta (d + s1 / 86400) (s1 mod 86400) (us mod 1000000).

(** [datetime.__sub__] for two datetimes of the same [tzinfo]. *)
Definition sub (a b : t) : timedelta :=
  let secs1 := second a + minute a * 60 + hour a * 3600 in
  let secs2 := second b + minute b * 60 + hour b * 3600 in
  new_timedelta (toordinal a - toordinal b) (secs1 - secs2)
                (microsecond a - microsecond b).

(** Position on the time line, in microseconds. *)
Definition to_microseconds (d : t) : Z :=
  (toordinal d * 86400 + (second d + minute d * 60 + hour d * 3600)) * 1000000
  + microsecond d.

Definition MICROSECONDS_PER_DAY : Z := 86400 * 1000000.

(** Decimal rendering with zero padding to [width] digits. *)
Definition digit (n : Z) : Ascii.ascii := Ascii.ascii_of_nat (48 + Z.to_nat (n mod 10)).

Fixpoint zero_padded (width : nat) (n : Z) : string :=
  match width with
  | O => EmptyString
  | S w => zero_padded w (n / 10) +:+ String (digit n) EmptyString
  end.

(** [strftime('%Y-%m')]: four-digit year, dash, two-digit month. *)
Definition strftime_Y_m (d : t) : string :=
  zero_padded 4 (year d) +:+ "-" +:+ zero_padded 2 (month d).

End datetime.

(** ** Issue records and the heap *)

(** Modelled from the spec: [model.Issue] is not part of this file's source.
    The spec's data model gives an identifier, two optional timestamps and
    the labels; [duration_days] is the attribute [calculate_issue_durations]
    adds, absent ([None]) until then. *)
Record Issue : Type := mkIssue {
  number : Z;
  created_date : option datetime.t;
  updated_date : option datetime.t;
  labels : list string;
  duration_days : option Z
}.

(** [issue.duration_days = d] *)
Definition set_duration_days (i : Issue) (d : Z) : Issue :=
  {| number := number i; created_date := created_date i;
     updated_date := updated_date i; labels := labels i;
     duration_days := Some d |}.

Abbreviation loc := positive.
Abbreviation heap := (gmap positive Issue).

(** The objects a list of references points at, in list order. *)
Definition load (σ : heap) (issues : list loc) : list Issue :=
  omap (λ l, σ !! l) issues.

(** The receiver: [self.label_filter], read from the configuration. *)
Record AnalyzerTwo : Type := mkAnalyzer {
  label_filter : option string
}.

(** ** Pass 1: calculate_issue_durations *)

(** Body of the loop for one object. *)
Definition derive_duration (i : Issue) : Issue :=
  match created_date i, updated_date i with
  | Some c, Some u => set_duration_days i (datetime.days (datetime.sub u c))
  | _, _ => i
  end.

Definition derive_at (σ : heap) (l : loc) : heap :=
  match σ !! l with
  | Some i => <[l := derive_duration i]> σ
  | None => σ
  end.

Definition calculate_issue_durations (self : AnalyzerTwo) (σ : heap)
    (issues : list loc) : heap :=
  foldl derive_at σ issues.

(** ** Python built-ins used by the aggregators *)

(** [issue.duration_days] read as an attribute. *)
Definition get_duration_days (issue : Issue) : result Z :=
  match duration_days issue with
  | Some d => Return d
  | None => Raise AttributeError
  end.

(** [hasattr(issue, 'duration_days')] *)
Definition hasattr_duration_days (issue : Issue) : bool :=
  match duration_days issue with
  | Some _ => true
  | None => false
  end.

(** [sum(xs)]: starts from 0 and adds from the left. *)
Definition sum_Z (xs : list Z) : Z := foldl Z.add 0 xs.

(** [len(xs)] *)
Definition len {A : Type} (xs : list A) : Z := Z.of_nat (length xs).

(** [a / b] on two ints. *)
Definition py_truediv (a b : Z) : result Q :=
  if decide (b = 0) then Raise ZeroDivisionError
  else Return (Qred (inject_Z a / inject_Z b)).

(** [x > avg] for an int [x] and the quotient [avg]. *)
Definition exceeds (x : Z) (avg : Q) : bool :=
  negb (Qle_bool (inject_Z x) avg).

(** A dict with string keys, in insertion order. *)
Abbreviation dict V := (list (string * V)).

Section dict.
Context {V : Type}.

(** [d.get(k)] *)
Fixpoint dict_get (d : dict V) (k : string) : option V :=
  match d with
  | [] => None
  | (k', v) :: d' => if decide (k = k') then Some v else dict_get d' k
  end.

(** [d[k] = v]: the value of an existing key is replaced where it stands,
    a new key goes to the end. *)
Fixpoint dict_set (d : dict V) (k : string) (v : V) : dict V :=
  match d with
  | [] => [(k, v)]
  | (k', v') :: d' =>
      if decide (k = k') then (k, v) :: d' else (k', v') :: dict_set d' k v
  end.

(** [a, b = zip] of the unpacked [d.items()]: with no item [zip()] yields
    nothing and the unpacking into two names raises [ValueError]. *)
Definition unzip_items (d : dict V) : result (list string * list V) :=
  match d with
  | [] => Raise ValueError
  | _ :: _ => Return (d.*1, d.*2)
  end.
End dict.

(** A stable sort: [x] is put before the first element it is [le] to, so
    equal elements keep the order they came in. *)
Section stable_sort.
Context {A : Type} (le : A -> A -> bool).

Fixpoint insert_sorted (x : A) (l : list A) : list A :=
  match l with
  | [] => [x]
  | y :: l' => if le x y then x :: y :: l' else y :: insert_sorted x l'
  end.

Definition stable_sort (l : list A) : list A := foldr insert_sorted [] l.
End stable_sort.

(** [sorted(items, key=lambda x: x[1])] *)
Definition sorted_by_value (items : dict Z) : dict Z :=
  stable_sort (λ x y, x.2 <=? y.2) items.

(** [sorted(items, key=lambda x: x[1], reverse=True)]: the list is reversed,
    sorted and reversed again, which keeps equal elements in their original
    order. *)
Definition sorted_by_value_reverse (items : dict Z) : dict Z :=
  reverse (sorted_by_value (reverse items)).

(** ** Pass 2: issue_lifecycle_visualization *)

(** Lines 48-49: the list the rest of the method works on. *)
Definition filter_by_label (self : AnalyzerTwo) (issues : list Issue) : list Issue :=
  match label_filter self with
  | Some f =>
      if decide (f = "") then issues
      else filter (λ issue, f ∈ labels issue) issues
  | None => issues
  end.

(** Lines 55-57: one round of the inner loop. *)
Definition append_duration (issue : Issue) (label_durations : dict (list Z))
    (label : string) : result (dict (list Z)) :=
  let label_durations :=
    match dict_get label_durations label with
    | None => dict_set label_durations label []
    | Some _ => label_durations
    end in
  d ← get_duration_days issue;
  mret (dict_set label_durations label
          (default [] (dict_get label_durations label) ++ [d])).

(** Lines 52-57 *)
Definition collect_label_durations (issues : list Issue) : result (dict (list Z)) :=
  for_each (λ acc issue, for_each (append_duration issue) (labels issue) acc)
           issues [].

(** Line 59: the dict comprehension. *)
Fixpoint average_label_durations (items : dict (list Z)) : result (dict Q) :=
  match items with
  | [] => Return []
  | (label, durations) :: rest =>
      avg ← py_truediv (sum_Z durations) (len durations);
      rest' ← average_label_durations rest;
      mret ((label, avg) :: rest')
  end.

(** Lines 48-59: the mapping from label to mean duration. *)
Definition avg_label_durations (self : AnalyzerTwo) (issues : list Issue)
  : result (dict Q) :=
  let issues := filter_by_label self issues in
  label_durations ← collect_label_durations issues;
  average_label_durations label_durations.

(** The method returns the two series of its bar chart. *)
Definition issue_lifecycle_visualization (self : AnalyzerTwo) (issues : list Issue)
  : result (list string * list Q) :=
  avg_label_durations ← avg_label_durations self issues;
  unzip_items avg_label_durations.

(** ** Pass 3: seasonal_trends_analysis *)

(** [pd.DataFrame({'created_month': a, 'closed_month': b})]: columns of
    different lengths are refused with [ValueError]. *)
Definition DataFrame (created_month closed_month : list string)
  : result (list string * list string) :=
  if decide (length created_month = length closed_month)
  then Return (created_month, closed_month)
  else Raise ValueError.

(** Occurrences of each value, keyed in order of first appearance. *)
Definition tally (values : list string) : dict Z :=
  foldl (λ d k, dict_set d k (default 0 (dict_get d k) + 1)) [] values.

(** [Series.value_counts()]: the tally, most frequent first. *)
Definition value_counts (values : list string) : dict Z :=
  sorted_by_value_reverse (tally values).

(** [Series.sort_index()] on string labels: ascending, compared as strings. *)
Definition sort_index (s : dict Z) : dict Z :=
  stable_sort (λ x y, String.leb x.1 y.1) s.

(** Lines 77 and 78: [[issue.f.strftime('%Y-%m') for issue in issues if
    issue.f]] for a timestamp attribute [f]. *)
Definition month_column (f : Issue → option datetime.t) (issues : list Issue)
  : list string :=
  omap (λ issue, datetime.strftime_Y_m <$> f issue) issues.

(** The method returns the two series of its line chart. *)
Definition seasonal_trends_analysis (self : AnalyzerTwo) (issues : list Issue)
  : result (dict Z * dict Z) :=
  let created_month := month_column created_date issues in
  let closed_month := month_column updated_date issues in
  df ← DataFrame created_month closed_month;
  let created_counts := sort_index (value_counts df.1) in
  let closed_counts := sort_index (value_counts df.2) in
  mret (created_counts, closed_counts).

(** ** Pass 4: bottleneck_analysis *)

(** Line 103 *)
Definition average_duration (issues : list Issue) : result Q :=
  py_truediv (sum_Z (omap duration_days (filter hasattr_duration_days issues)))
             (len issues).

(** Line 105: the comprehension reads [duration_days] of every issue. *)
Fixpoint select_bottlenecks (avg_duration : Q) (issues : list Issue)
  : result (list Issue) :=
  match issues with
  | [] => Return []
  | issue :: rest =>
      d ← get_duration_days issue;
      rest' ← select_bottlenecks avg_duration rest;
      mret (if exceeds d avg_duration then issue :: rest' else rest')
  end.

(** Lines 110-112: one round of the inner loop. *)
Definition count_label (bottleneck_counts : dict Z) (label : string) : dict Z :=
  let bottleneck_counts :=
    match dict_get bottleneck_counts label with
    | None => dict_set bottleneck_counts label 0
    | Some _ => bottleneck_counts
    end in
  dict_set bottleneck_counts label
           (default 0 (dict_get bottleneck_counts label) + 1).

(** Lines 107-112 *)
Definition count_labels (bottleneck_issues : list Issue) : dict Z :=
  foldl (λ acc issue, foldl count_label acc (labels issue)) [] bottleneck_issues.

(** Lines 103-112: the mapping from label to number of bottleneck issues. *)
Definition bottleneck_counts (issues : list Issue) : result (dict Z) :=
  avg_duration ← average_duration issues;
  bottleneck_issues ← select_bottlenecks avg_duration issues;
  mret (count_labels bottleneck_issues).

(** The method returns the two series of its bar chart. *)
Definition bottleneck_analysis (self : AnalyzerTwo) (issues : list Issue)
  : result (list string * list Z) :=
  bottleneck_counts ← bottleneck_counts issues;
  unzip_items (sorted_by_value_reverse bottleneck_counts).

(** ** run *)

Inductive chart : Type :=
| LifecycleBars (labels : list string) (avg_durations : list Q)
| TrendLines (created_counts closed_counts : dict Z)
| BottleneckBars (labels : list string) (counts : list Z).

(** What a run shows before it ends, and the exception that ended it. *)
Record trace : Type := mkTrace {
  shown : list chart;
  uncaught : option exn
}.

Definition run (self : AnalyzerTwo) (σ : heap) (issues : list loc) : heap * trace :=
  let σ := calculate_issue_durations self σ issues in
  let objs := load σ issues in
  (σ,
   match issue_lifecycle_visualization self objs with
   | Raise e => mkTrace [] (Some e)
   | Return (ls, avgs) =>
       match seasonal_trends_analysis self objs with
       | Raise e => mkTrace [LifecycleBars ls avgs] (Some e)
       | Return (created, closed) =>
           match bottleneck_analysis self objs with
           | Raise e =>
               mkTrace [LifecycleBars ls avgs; TrendLines created closed] (Some e)
           | Return (bl, counts) =>
               mkTrace [LifecycleBars ls avgs; TrendLines created closed;
                        BottleneckBars bl counts] None
           end
       end
   end).

(** * Vocabulary of the properties *)

(** The fields of a record other than [duration_days]. *)
Definition other_fields (issue : Issue)
  : Z * option datetime.t * option datetime.t * list string :=
  (number issue, created_date issue, updated_date issue, labels issue).

(** An update [d[k] = f(d.get(k, init))], the shape of both counting loops
    and of the list-building loop. *)
Definition upsert {V : Type} (init : V) (f : V → V) (d : dict V) (k : string)
  : dict V :=
  dict_set d k (f (default init (dict_get d k))).

(** The keys of a sequence in order of first appearance. *)
Fixpoint first_seen (ks : list string) : list string :=
  match ks with
  | [] => []
  | k :: ks' => k :: filter (λ k', k' ≠ k) (first_seen ks')
  end.

Section upsert_step.
Context {X V : Type} (init : V) (f : X → V → V).

Definition upsert_step (d : dict V) (p : string * X) : dict V :=
  upsert init (f p.2) d p.1.

(** What was folded in under key [k], oldest first. *)
Definition values_of (k : string) (ps : list (string * X)) : list X :=
  (filter (λ p, p.1 = k) ps).*2.
End upsert_step.

(** How many times [k] occurs in [ks]. *)
Definition occurrences (k : string) (ks : list string) : Z :=
  len (filter (λ k', k' = k) ks).

(** The pairs a counting loop folds in: one per key, in order. *)
Definition ticks (ks : list string) : list (string * unit) :=
  (λ k, (k, ())) <$> ks.

Definition count_step : dict Z → string * unit → dict Z :=
  upsert_step 0 (λ _ c, c + 1).

(** [issue] has a duration and it is strictly above [avg]. *)
Definition is_bottleneck (avg : Q) (issue : Issue) : Prop :=
  ∃ d, duration_days issue = Some d ∧ (avg < inject_Z d)%Q.

#[global] Instance is_bottleneck_dec avg issue : Decision (is_bottleneck avg issue).
Proof.
  unfold is_bottleneck. destruct (duration_days issue) as [d|].
  - destruct (Qlt_le_dec avg (inject_Z d)) as [H|H].
    + left. eauto.
    + right. intros (d' & [= <-] & Hlt). by apply Qle_not_lt in H.
  - right. by intros (d & ? & _).
Defined.

(** The durations that are present, in record order. *)
Definition present_durations (issues : list Issue) : list Z :=
  omap duration_days issues.

(** Follows the specification's words: the mean over the records that have
    a duration, undefined when there is none. *)
Definition mean_of_present_durations (issues : list Issue) : result Q :=
  py_truediv (sum_Z (present_durations issues))
             (len (present_durations issues)).

(** The (label, duration) pairs of the records, in loop order: one pair for
    every label a record with a duration lists. *)
Definition label_duration_pairs (issues : list Issue) : list (string * Z) :=
  issues ≫= (λ issue,
    match duration_days issue with
    | Some d => (λ l, (l, d)) <$> labels issue
    | None => []
    end).

(** A record that lists a label has a duration. *)
Definition dated_if_labelled (issue : Issue) : Prop :=
  labels issue ≠ [] → is_Some (duration_days issue).

Definition group_step : dict (list Z) → string * Z → dict (list Z) :=
  upsert_step [] (λ x ds, ds ++ [x]).

(** [sum(durations) / len(durations)], as a number. *)
Definition mean (ds : list Z) : Q :=
  Qred (inject_Z (sum_Z ds) / inject_Z (len ds)).

(** The series built from one column: every month of the column once, with
    the number of its occurrences, in strictly ascending order. *)
Definition month_table (column : list string) (table : dict Z) : Prop :=
  (∀ month n, (month, n) ∈ table ↔
     month ∈ column ∧ n = occurrences month column) ∧
  StronglySorted (λ a b, String.ltb a b = true) table.*1.




(** Microseconds since midnight. *)
Definition time_of_day (d : datetime.t) : Z :=
  (datetime.second d + datetime.minute d * 60 + datetime.hour d * 3600)
  * 1000000 + datetime.microsecond d.

(** The time fields are in the ranges Python's [datetime] keeps them in. *)
Definition valid_time (d : datetime.t) : Prop :=
  0 <= datetime.hour d < 24 ∧ 0 <= datetime.minute d < 60 ∧
  0 <= datetime.second d < 60 ∧ 0 <= datetime.microsecond d < 1000000.

(** ** Sample records *)

(** A record updated 45 days and 23 hours before it was created: the
    difference is negative and its floor is -46 days. *)
Definition backdated : Issue :=
  mkIssue 7 (Some (datetime.mk 2024 3 1 9 0 0 0))
            (Some (datetime.mk 2024 1 15 10 0 0 0)) ["bug"] None.

Definition backdated_heap : heap := {[ 1%positive := backdated ]}.

(** Scenario C of the specification: durations 2, 4, 6, 20 with labels A, A,
    B, B. *)
Definition scenario_C : list Issue :=
  [ mkIssue 1 None None ["A"] (Some 2); mkIssue 2 None None ["A"] (Some 4);
    mkIssue 3 None None ["B"] (Some 6); mkIssue 4 None None ["B"] (Some 20) ].

(** A record with one label, closed after five days: it is its own mean, so
    no record is above it. *)
Definition lone_issue : Issue := mkIssue 1 None None ["bug"] (Some 5).

(** One record closed after four days and one without timestamps. *)
Definition half_dated : list Issue :=
  [ mkIssue 1 None None ["bug"] (Some 4); mkIssue 2 None None ["bug"] None ].

(** One labelled record without timestamps, hence without duration. *)
Definition undated : list Issue := [ mkIssue 1 None None ["bug"] None ].

(** One record with a creation date and no update date. *)
Definition never_updated : list Issue :=
  [ mkIssue 1 (Some (datetime.mk 2024 1 15 9 30 0 0)) None [] None ].


(** Created late on new year's eve and updated two hours later, on new
    year's day: less than a day apart, over a date change. *)
Definition overnight : Issue :=
  mkIssue 9 (Some (datetime.mk 2023 12 31 23 0 0 0))
            (Some (datetime.mk 2024 1 1 1 0 0 0)) [] None.

Definition overnight_heap : heap := {[ 1%positive := overnight ]}.

(** Three records created in two different months, each updated a month
    after its creation. *)
Definition three_months : list Issue :=
  [ mkIssue 1 (Some (datetime.mk 2024 2 10 0 0 0 0))
              (Some (datetime.mk 2024 3 10 0 0 0 0)) ["bug"] None;
    mkIssue 2 (Some (datetime.mk 2024 1 5 0 0 0 0))
              (Some (datetime.mk 2024 2 5 0 0 0 0)) ["ui"] None;
    mkIssue 3 (Some (datetime.mk 2024 2 20 0 0 0 0))
              (Some (datetime.mk 2024 3 20 0 0 0 0)) [] None ].

(** A record with a label and a creation date that was never updated, in a
    heap of its own. *)
Definition stale : Issue :=
  mkIssue 3 (Some (datetime.mk 2024 5 1 8 0 0 0)) None ["bug"] None.

Definition stale_heap : heap := {[ 1%positive := stale ]}.

(** * Properties *)

(** ** The duration deriver *)

Section deriver.
Variable self : AnalyzerTwo.

Lemma derive_duration_idemp issue :
  derive_duration (derive_duration issue) = derive_duration issue.
Proof.
  unfold derive_duration.
  destruct issue as [n [c|] [u|] ls d]; reflexivity.
Qed.

Lemma lookup_derive_at σ a l :
  derive_at σ a !! l
  = if decide (l = a) then derive_duration <$> σ !! l else σ !! l.
Proof.
  unfold derive_at. case_decide as Hl.
  - subst l. destruct (σ !! a) as [i|] eqn:E.
    + by rewrite lookup_insert_eq.
    + by rewrite E.
  - destruct (σ !! a); [by rewrite lookup_insert_ne|done].
Qed.

(** The heap after the loop, read at any address. *)
Lemma lookup_calculate issues : ∀ σ l,
  calculate_issue_durations self σ issues !! l
  = if decide (l ∈ issues) then derive_duration <$> σ !! l else σ !! l.
Proof.
  unfold calculate_issue_durations.
  induction issues as [|a issues IH]; intros σ l; simpl.
  - done.
  - rewrite IH, lookup_derive_at.
    repeat case_decide; subst; try done;
      try (exfalso; rewrite ?elem_of_cons in *; tauto).
    destruct (σ !! a); simpl; [|done].
    by rewrite derive_duration_idemp.
Qed.

Lemma omap_lookup_ext (σ σ' : heap) (f : Issue → Issue) (ls : list loc) :
  (∀ l, l ∈ ls → σ' !! l = f <$> σ !! l) →
  load σ' ls = f <$> load σ ls.
Proof.
  unfold load. induction ls as [|a ls IH]; intros H; csimpl; [done|].
  rewrite (H a), IH by set_solver.
  by destruct (σ !! a).
Qed.

(** What the later passes see: every listed object, derived. *)
Lemma load_calculate σ issues :
  load (calculate_issue_durations self σ issues) issues
  = derive_duration <$> load σ issues.
Proof.
  apply omap_lookup_ext. intros l Hl.
  by rewrite lookup_calculate, decide_True.
Qed.

Lemma calculate_idemp σ issues :
  calculate_issue_durations self (calculate_issue_durations self σ issues) issues
  = calculate_issue_durations self σ issues.
Proof.
  apply map_eq. intros l. rewrite !lookup_calculate.
  case_decide; [|done].
  destruct (σ !! l); simpl; [|done].
  by rewrite derive_duration_idemp.
Qed.

End deriver.

(** [timedelta.days] is the floor of the difference in days. *)
Lemma days_sub_floor (u c : datetime.t) :
  let diff := datetime.to_microseconds u - datetime.to_microseconds c in
  let d := datetime.days (datetime.sub u c) in
  d * datetime.MICROSECONDS_PER_DAY <= diff
  < (d + 1) * datetime.MICROSECONDS_PER_DAY.
Proof.
  unfold datetime.sub, datetime.new_timedelta, datetime.to_microseconds,
    datetime.MICROSECONDS_PER_DAY; simpl.
  set (du := datetime.toordinal u - datetime.toordinal c).
  set (su := datetime.second u + datetime.minute u * 60 + datetime.hour u * 3600).
  set (sc := datetime.second c + datetime.minute c * 60 + datetime.hour c * 3600).
  set (us := datetime.microsecond u - datetime.microsecond c).
  pose proof (Z.div_mod us 1000000 ltac:(lia)) as H1.
  pose proof (Z.mod_pos_bound us 1000000 ltac:(lia)) as B1.
  set (s1 := su - sc + us / 1000000) in *.
  pose proof (Z.div_mod s1 86400 ltac:(lia)) as H2.
  pose proof (Z.mod_pos_bound s1 86400 ltac:(lia)) as B2.
  subst du. lia.
Qed.

Lemma other_fields_derive issue :
  other_fields (derive_duration issue) = other_fields issue.
Proof.
  unfold derive_duration.
  destruct (created_date issue), (updated_date issue); reflexivity.
Qed.

(** The charts of a run depend on the objects the list points at, not on
    where they live. *)
Lemma run_trace_load self σ issues σ' issues' :
  load σ' issues' = load σ issues →
  (run self σ' issues').2 = (run self σ issues).2.
Proof.
  intros H. unfold run; cbn [snd]. by rewrite !load_calculate, H.
Qed.

(** C5: after the duration deriver has run, a listed record that had both
    timestamps has [duration_days] equal to the floor of
    [(updated_date - created_date)] in days (signed, not clamped), and a
    listed record that misses a timestamp has the [duration_days] it had
    before (none, if it had none); the deriver is total, it raises nothing. *)
Theorem calculate_issue_durations_floor_days self σ issues l issue :
  l ∈ issues →
  σ !! l = Some issue →
  ∃ issue',
    calculate_issue_durations self σ issues !! l = Some issue' ∧
    match created_date issue, updated_date issue with
    | Some c, Some u =>
        let diff := datetime.to_microseconds u - datetime.to_microseconds c in
        ∃ d, duration_days issue' = Some d ∧
             d = diff `div` datetime.MICROSECONDS_PER_DAY ∧
             d * datetime.MICROSECONDS_PER_DAY <= diff
               < (d + 1) * datetime.MICROSECONDS_PER_DAY
    | _, _ => duration_days issue' = duration_days issue
    end.
Proof.
  intros Hl Hσ. exists (derive_duration issue). split.
  - by rewrite lookup_calculate, decide_True, Hσ.
  - unfold derive_duration.
    destruct (created_date issue) as [c|], (updated_date issue) as [u|];
      try reflexivity.
    cbn zeta. eexists; split; [reflexivity|].
    pose proof (days_sub_floor u c) as Hfloor. cbn zeta in Hfloor.
    split; [|exact Hfloor].
    unfold datetime.MICROSECONDS_PER_DAY in *.
    apply Z.div_unique with
      (r := datetime.to_microseconds u - datetime.to_microseconds c
            - datetime.days (datetime.sub u c) * (86400 * 1000000)); lia.
Qed.

Lemma calculate_issue_durations_floor_days_backdated :
  (1%positive ∈ [1%positive] ∧ backdated_heap !! 1%positive = Some backdated) ∧
  ∃ issue',
    calculate_issue_durations (mkAnalyzer None) backdated_heap [1%positive]
      !! 1%positive = Some issue' ∧
    ∃ d, duration_days issue' = Some d ∧
         d = (-3970800000000) `div` datetime.MICROSECONDS_PER_DAY ∧
         d * datetime.MICROSECONDS_PER_DAY <= -3970800000000
           < (d + 1) * datetime.MICROSECONDS_PER_DAY.
Proof.
  split; [split; [apply list_elem_of_here|reflexivity]|].
  apply (calculate_issue_durations_floor_days (mkAnalyzer None) backdated_heap
           [1%positive] 1%positive backdated);
    [apply list_elem_of_here|reflexivity].
Defined.

(** C10: the duration deriver changes nothing but [duration_days]: every
    object keeps its id, timestamps and labels, no object appears or
    disappears, and the listed records are the same ones in the same
    order. *)
Theorem calculate_issue_durations_frame self σ issues :
  (∀ l issue, σ !! l = Some issue →
     ∃ issue', calculate_issue_durations self σ issues !! l = Some issue' ∧
               other_fields issue' = other_fields issue) ∧
  (∀ l, σ !! l = None → calculate_issue_durations self σ issues !! l = None) ∧
  (∀ l, l ∉ issues →
     calculate_issue_durations self σ issues !! l = σ !! l) ∧
  other_fields <$> load (calculate_issue_durations self σ issues) issues
  = other_fields <$> load σ issues.
Proof.
  repeat split.
  - intros l issue Hσ. rewrite lookup_calculate, Hσ.
    case_decide; eexists; (split; [reflexivity|]);
      [apply other_fields_derive|reflexivity].
  - intros l Hσ. rewrite lookup_calculate, Hσ. by case_decide.
  - intros l Hl. by rewrite lookup_calculate, decide_False.
  - rewrite load_calculate, <- list_fmap_compose.
    apply list_fmap_ext. intros ? issue _. apply other_fields_derive.
Qed.

(** C9: a second run of the pipeline on the records the first run left
    behind ends in the same heap with the same charts and the same
    exception, if any; a second pass of the duration deriver rewrites each
    [duration_days] with the value it has; and a run on copies of the
    original records shows what the run on the originals shows. *)
Theorem run_idempotent self σ issues :
  run self (run self σ issues).1 issues = run self σ issues ∧
  calculate_issue_durations self
    (calculate_issue_durations self σ issues) issues
  = calculate_issue_durations self σ issues ∧
  (∀ σ' issues', load σ' issues' = load σ issues →
     (run self σ' issues').2 = (run self σ issues).2).
Proof.
  repeat split.
  - unfold run; cbn [fst]. by rewrite calculate_idemp.
  - apply calculate_idemp.
  - intros σ' issues'. apply run_trace_load.
Qed.

(** ** Dicts *)

Section dict_facts.
Context {V : Type}.
Implicit Types (d : dict V) (k : string) (v : V).

Lemma dict_get_set d k v k' :
  dict_get (dict_set d k v) k'
  = if decide (k' = k) then Some v else dict_get d k'.
Proof.
  induction d as [|[k0 v0] d IH]; simpl.
  - by case_decide.
  - destruct (decide (k = k0)) as [->|Hk]; simpl.
    + by destruct (decide (k' = k0)).
    + destruct (decide (k' = k0)) as [->|]; [|exact IH].
      by rewrite decide_False.
Qed.

Lemma dict_get_None d k : dict_get d k = None ↔ k ∉ d.*1.
Proof.
  induction d as [|[k0 v0] d IH]; simpl.
  - split; [intros _; apply not_elem_of_nil|done].
  - rewrite not_elem_of_cons. case_decide; [|tauto].
    split; [done|tauto].
Qed.

Lemma dict_get_Some_elem d k v : dict_get d k = Some v → (k, v) ∈ d.
Proof.
  induction d as [|[k0 v0] d IH]; simpl; [done|].
  case_decide as Hk.
  - intros [= ->]. subst. apply list_elem_of_here.
  - intros. apply list_elem_of_further. auto.
Qed.

Lemma dict_elem_get d k v : NoDup d.*1 → (k, v) ∈ d → dict_get d k = Some v.
Proof.
  induction d as [|[k0 v0] d IH]; simpl.
  - intros _ H. by apply elem_of_nil in H.
  - rewrite NoDup_cons. intros [Hk0 Hnd] [[= -> ->]|Hin]%elem_of_cons.
    + by rewrite decide_True.
    + rewrite decide_False; [auto|].
      intros ->. apply Hk0. apply list_elem_of_fmap. by exists (k0, v).
Qed.

Lemma dict_set_keys d k v :
  (dict_set d k v).*1 = if decide (k ∈ d.*1) then d.*1 else d.*1 ++ [k].
Proof.
  induction d as [|[k0 v0] d IH]; csimpl.
  - done.
  - destruct (decide (k = k0)) as [->|Hk]; csimpl.
    + rewrite decide_True; [done|apply list_elem_of_here].
    + rewrite IH. destruct (decide (k ∈ d.*1)).
      * rewrite decide_True; [done|by apply list_elem_of_further].
      * rewrite decide_False; [done|]. rewrite not_elem_of_cons. tauto.
Qed.

Lemma dict_set_set d k v w : dict_set (dict_set d k v) k w = dict_set d k w.
Proof.
  induction d as [|[k0 v0] d IH]; simpl.
  - by rewrite decide_True.
  - destruct (decide (k = k0)) as [->|Hk]; simpl.
    + by rewrite decide_True.
    + by rewrite decide_False, IH.
Qed.
End dict_facts.

Lemma count_label_upsert d k : count_label d k = upsert 0 (λ c, c + 1) d k.
Proof.
  unfold count_label, upsert.
  destruct (dict_get d k) eqn:E; simpl.
  - by rewrite E.
  - rewrite dict_get_set, decide_True by done. simpl. apply dict_set_set.
Qed.

(** ** The stable sort *)

Section stable_sort_facts.
Context {A : Type} (le : A → A → bool).

Lemma insert_sorted_Permutation x l : insert_sorted le x l ≡ₚ x :: l.
Proof.
  induction l as [|y l IH]; simpl; [done|].
  destruct (le x y); [done|].
  rewrite IH. apply Permutation_swap.
Qed.

Lemma stable_sort_Permutation l : stable_sort le l ≡ₚ l.
Proof.
  induction l as [|x l IH]; simpl; [done|].
  by rewrite insert_sorted_Permutation, IH.
Qed.

(** Elements that are pairwise [le] (equal keys, for a sort by key) come
    out in the order they went in. *)
Lemma filter_insert_sorted (P : A → Prop) `{!∀ x, Decision (P x)} x l :
  (∀ a b, P a → P b → le a b = true) →
  filter P (insert_sorted le x l) = filter P (x :: l).
Proof.
  intros HP. induction l as [|y l IH]; simpl; [done|].
  destruct (le x y) eqn:E; [done|].
  rewrite filter_cons, IH, !filter_cons.
  destruct (decide (P y)), (decide (P x)); try done.
  by rewrite HP in E.
Qed.

Lemma filter_stable_sort (P : A → Prop) `{!∀ x, Decision (P x)} l :
  (∀ a b, P a → P b → le a b = true) →
  filter P (stable_sort le l) = filter P l.
Proof.
  intros HP. induction l as [|x l IH]; simpl; [done|].
  rewrite filter_insert_sorted by done.
  by rewrite !filter_cons, IH.
Qed.

Hypothesis le_total : ∀ a b, le a b = true ∨ le b a = true.

Lemma insert_sorted_Sorted x l :
  Sorted (λ a b, le a b = true) l →
  Sorted (λ a b, le a b = true) (insert_sorted le x l).
Proof.
  induction 1 as [|y l Hs IH Hhd]; simpl.
  - by repeat constructor.
  - destruct (le x y) eqn:E.
    + by repeat constructor.
    + constructor; [done|].
      destruct l as [|z l]; simpl.
      * constructor. by destruct (le_total x y) as [H|H]; [congruence|].
      * destruct (le x z).
        -- constructor. by destruct (le_total x y) as [H|H]; [congruence|].
        -- constructor. by inversion Hhd.
Qed.

Lemma stable_sort_Sorted l : Sorted (λ a b, le a b = true) (stable_sort le l).
Proof.
  induction l as [|x l IH]; simpl; [constructor|].
  by apply insert_sorted_Sorted.
Qed.
End stable_sort_facts.

(** ** Folding updates into a dict *)

Lemma elem_of_first_seen ks k : k ∈ first_seen ks ↔ k ∈ ks.
Proof.
  induction ks as [|a ks IH]; simpl; [done|].
  rewrite !elem_of_cons, list_elem_of_filter, IH.
  destruct (decide (k = a)); tauto.
Qed.

Lemma NoDup_first_seen ks : NoDup (first_seen ks).
Proof.
  induction ks as [|a ks IH]; simpl; [constructor|].
  apply NoDup_cons. split.
  - rewrite list_elem_of_filter. tauto.
  - by apply NoDup_filter.
Qed.

Lemma filter_all {A : Type} (P : A → Prop) `{!∀ x, Decision (P x)} (l : list A) :
  (∀ x, P x) → filter P l = l.
Proof.
  intros HP. induction l as [|x l IH]; [done|].
  by rewrite filter_cons_True, IH.
Qed.

Section upsert_fold.
Context {X V : Type} (init : V) (f : X → V → V).

Lemma values_of_cons k a (x : X) ps :
  values_of k ((a, x) :: ps)
  = if decide (a = k) then x :: values_of k ps else values_of k ps.
Proof. unfold values_of. rewrite filter_cons. simpl. by case_decide. Qed.

Lemma upsert_fold_get ps : ∀ d k,
  dict_get (foldl (upsert_step init f) d ps) k
  = match dict_get d k, values_of k ps with
    | None, [] => None
    | o, xs => Some (foldl (λ v x, f x v) (default init o) xs)
    end.
Proof.
  induction ps as [|[a x] ps IH]; intros d k.
  - simpl. by destruct (dict_get d k).
  - cbn [foldl]. rewrite IH, values_of_cons.
    assert (dict_get (upsert_step init f d (a, x)) k
            = if decide (k = a)
              then Some (f x (default init (dict_get d a)))
              else dict_get d k) as ->
      by (unfold upsert_step, upsert; simpl; apply dict_get_set).
    destruct (decide (k = a)) as [->|Hk].
    + rewrite decide_True by done. by destruct (dict_get d a).
    + rewrite decide_False by (by intros ->). done.
Qed.

Lemma upsert_fold_keys ps : ∀ d,
  (foldl (upsert_step init f) d ps).*1
  = d.*1 ++ filter (λ k, k ∉ d.*1) (first_seen ps.*1).
Proof.
  induction ps as [|[a x] ps IH]; intros d.
  - csimpl. by rewrite filter_nil, app_nil_r.
  - cbn [foldl]. rewrite IH. csimpl.
    assert ((upsert_step init f d (a, x)).*1
            = if decide (a ∈ d.*1) then d.*1 else d.*1 ++ [a]) as ->
      by (unfold upsert_step, upsert; simpl; apply dict_set_keys).
    rewrite filter_cons, list_filter_filter.
    destruct (decide (a ∈ d.*1)) as [Ha|Ha].
    + rewrite decide_False by tauto. f_equal.
      apply list_filter_iff. intros k. split; [|tauto].
      intros Hk; split; [done|]. by intros ->.
    + rewrite decide_True by done. rewrite <- app_assoc. simpl.
      do 2 f_equal. apply list_filter_iff. intros k.
      rewrite not_elem_of_app, list_elem_of_singleton. tauto.
Qed.

Lemma upsert_fold_keys_nil ps :
  (foldl (upsert_step init f) [] ps).*1 = first_seen ps.*1.
Proof.
  rewrite upsert_fold_keys. simpl.
  apply filter_all. intros k. apply not_elem_of_nil.
Qed.
End upsert_fold.

(** ** Counting labels *)

Lemma foldl_ticks {S : Type} (g : S → string → S) ks : ∀ acc,
  foldl (λ acc (p : string * unit), g acc p.1) acc (ticks ks) = foldl g acc ks.
Proof. induction ks as [|k ks IH]; intros acc; simpl; [done|apply IH]. Qed.

Lemma tally_ticks ks : tally ks = foldl count_step [] (ticks ks).
Proof. unfold tally. by rewrite <- foldl_ticks. Qed.

Lemma foldl_count_label ks : ∀ acc,
  foldl count_label acc ks = foldl count_step acc (ticks ks).
Proof.
  induction ks as [|k ks IH]; intros acc; simpl; [done|].
  by rewrite IH, count_label_upsert.
Qed.

Lemma count_labels_ticks issues : ∀ acc,
  foldl (λ acc issue, foldl count_label acc (labels issue)) acc issues
  = foldl count_step acc (ticks (issues ≫= labels)).
Proof.
  induction issues as [|i issues IH]; intros acc; csimpl; [done|].
  unfold ticks. rewrite fmap_app, foldl_app, IH. f_equal.
  apply foldl_count_label.
Qed.

Lemma count_labels_tally issues : count_labels issues = tally (issues ≫= labels).
Proof. unfold count_labels. by rewrite count_labels_ticks, tally_ticks. Qed.

Lemma ticks_keys ks : (ticks ks).*1 = ks.
Proof.
  unfold ticks. rewrite <- list_fmap_compose.
  induction ks; csimpl; [done|]. by f_equal.
Qed.

Lemma values_of_ticks k ks :
  len (values_of k (ticks ks)) = occurrences k ks.
Proof.
  unfold values_of, occurrences, len, ticks. rewrite length_fmap.
  f_equal. induction ks as [|a ks IH]; csimpl; [done|].
  rewrite !filter_cons. simpl. case_decide; simpl; by rewrite IH.
Qed.

Lemma foldl_count_units (c : Z) (us : list unit) :
  foldl (λ v _, v + 1) c us = c + len us.
Proof.
  revert c. unfold len.
  induction us as [|u us IH]; intros c; simpl; [lia|].
  rewrite IH. lia.
Qed.

Lemma occurrences_nonneg k ks : 0 <= occurrences k ks.
Proof. unfold occurrences, len. lia. Qed.

Lemma occurrences_pos k ks : 0 < occurrences k ks ↔ k ∈ ks.
Proof.
  unfold occurrences, len. induction ks as [|a ks IH]; simpl.
  - rewrite elem_of_nil. lia.
  - rewrite filter_cons, elem_of_cons. case_decide; simpl.
    + subst. split; [auto|lia].
    + rewrite IH. split; [auto|]. intros [->|]; done.
Qed.

(** The tally gives every value that occurs its number of occurrences, and
    nothing else. *)
Lemma tally_get ks k :
  dict_get (tally ks) k
  = if decide (k ∈ ks) then Some (occurrences k ks) else None.
Proof.
  rewrite tally_ticks. unfold count_step. rewrite upsert_fold_get. simpl.
  pose proof (values_of_ticks k ks) as Hlen.
  pose proof (occurrences_pos k ks) as Hpos.
  destruct (values_of k (ticks ks)) as [|u us] eqn:E.
  - rewrite decide_False; [done|].
    intros Hk%Hpos. unfold len in Hlen; simpl in Hlen. lia.
  - assert (0 < occurrences k ks) as Hocc
      by (rewrite <- Hlen; unfold len; simpl; lia).
    rewrite decide_True by by apply Hpos.
    f_equal. rewrite <- Hlen, foldl_count_units.
    unfold len. simpl length. lia.
Qed.

Lemma tally_keys ks : (tally ks).*1 = first_seen ks.
Proof.
  rewrite tally_ticks. unfold count_step.
  by rewrite upsert_fold_keys_nil, ticks_keys.
Qed.

(** ** [sorted(..., key=lambda x: x[1], reverse=True)] *)

Lemma sorted_by_value_reverse_Permutation d : sorted_by_value_reverse d ≡ₚ d.
Proof.
  unfold sorted_by_value_reverse, sorted_by_value.
  by rewrite reverse_Permutation, stable_sort_Permutation, reverse_Permutation.
Qed.

Lemma sorted_by_value_reverse_descending d :
  StronglySorted (λ m n : Z, n <= m) (sorted_by_value_reverse d).*2.
Proof.
  apply Sorted_StronglySorted; [intros x y z; lia|].
  apply Sorted_fmap with (R1 := flip (λ a b : string * Z, (a.2 <=? b.2) = true)).
  - unfold flip. intros x y. lia.
  - apply Sorted_reverse, stable_sort_Sorted. intros a b. lia.
Qed.

(** Stability: the items of one count keep the order they had in the dict. *)
Lemma sorted_by_value_reverse_stable d c :
  filter (λ p, p.2 = c) (sorted_by_value_reverse d) = filter (λ p, p.2 = c) d.
Proof.
  unfold sorted_by_value_reverse, sorted_by_value.
  rewrite filter_reverse, filter_stable_sort, filter_reverse.
  - apply reverse_involutive.
  - intros a b -> ->. lia.
Qed.

Lemma unzip_items_Return {V : Type} (d : dict V) ks vs :
  unzip_items d = Return (ks, vs) → d ≠ [] ∧ ks = d.*1 ∧ vs = d.*2.
Proof. destruct d; simpl; [done|]. by intros [= <- <-]. Qed.

Lemma zip_fst_snd_dict {V : Type} (d : dict V) : zip d.*1 d.*2 = d.
Proof. induction d as [|[k v] d IH]; csimpl; [done|]. by rewrite IH. Qed.

(** ** The bottleneck subset *)

Lemma exceeds_spec d avg : exceeds d avg = true ↔ (avg < inject_Z d)%Q.
Proof.
  unfold exceeds. rewrite negb_true_iff, <- not_true_iff_false, Qle_bool_iff.
  split; [apply Qnot_le_lt|apply Qlt_not_le].
Qed.

Lemma select_bottlenecks_Return avg issues subset :
  select_bottlenecks avg issues = Return subset →
  subset = filter (is_bottleneck avg) issues ∧
  Forall (λ issue, is_Some (duration_days issue)) issues.
Proof.
  revert subset. induction issues as [|i issues IH]; intros subset; simpl.
  - intros [= <-]. by split.
  - unfold get_duration_days. destruct (duration_days i) as [d|] eqn:Ed; [|done].
    simpl. destruct (select_bottlenecks avg issues) as [rest|]; [|done].
    simpl. intros [= <-]. destruct (IH rest eq_refl) as [-> Hall].
    split; [|constructor; [by rewrite Ed|done]].
    rewrite filter_cons. destruct (exceeds d avg) eqn:Ex.
    + rewrite decide_True; [done|]. exists d. by rewrite <- exceeds_spec.
    + rewrite decide_False; [done|]. intros (d' & Hd' & Hlt).
      rewrite Ed in Hd'. injection Hd' as <-.
      apply exceeds_spec in Hlt. congruence.
Qed.

Lemma occurrences_app k ks1 ks2 :
  occurrences k (ks1 ++ ks2) = occurrences k ks1 + occurrences k ks2.
Proof. unfold occurrences, len. rewrite filter_app, length_app. lia. Qed.

Lemma occurrences_NoDup k ks :
  NoDup ks → occurrences k ks = if decide (k ∈ ks) then 1 else 0.
Proof.
  unfold occurrences, len. induction 1 as [|a ks Ha Hnd IH]; [done|].
  rewrite filter_cons. destruct (decide (a = k)) as [->|Hne].
  - rewrite decide_True by apply list_elem_of_here.
    rewrite decide_False in IH by done. simpl length. lia.
  - rewrite IH. destruct (decide (k ∈ ks)).
    + rewrite decide_True; [done|by apply list_elem_of_further].
    + rewrite decide_False; [done|]. rewrite not_elem_of_cons. split; congruence.
Qed.

(** When no record repeats a label, a label's count is the number of
    records that carry it. *)
Lemma occurrences_carriers k issues :
  Forall (λ issue, NoDup (labels issue)) issues →
  occurrences k (issues ≫= labels)
  = len (filter (λ issue, k ∈ labels issue) issues).
Proof.
  induction 1 as [|i issues Hi _ IH]; [done|]. csimpl.
  rewrite occurrences_app, IH, occurrences_NoDup, filter_cons by done.
  unfold len. case_decide; simpl length; lia.
Qed.

(** Values that are a function of the key: filtering on the value is
    filtering the keys. *)
Lemma filter_value_keys {V : Type} `{EqDecision V} (g : string → V) (d : dict V) c :
  (∀ k v, (k, v) ∈ d → v = g k) →
  (filter (λ p, p.2 = c) d).*1 = filter (λ k, g k = c) d.*1.
Proof.
  induction d as [|[k v] d IH]; intros Hg; [done|]. csimpl.
  rewrite !filter_cons. simpl.
  rewrite (Hg k v) by apply list_elem_of_here.
  case_decide; csimpl; rewrite IH; auto;
    intros; apply Hg; by apply list_elem_of_further.
Qed.

(** ** The population mean *)

Lemma omap_filter_hasattr issues :
  omap duration_days (filter hasattr_duration_days issues)
  = present_durations issues.
Proof.
  unfold present_durations.
  induction issues as [|i issues IH]; [done|].
  rewrite filter_cons.
  destruct (decide (hasattr_duration_days i)) as [H|H];
    unfold hasattr_duration_days in H; csimpl;
    destruct (duration_days i) eqn:E; try done; simpl in *.
  - by rewrite IH.
Qed.

Lemma py_truediv_Return a b q :
  py_truediv a b = Return q → b ≠ 0 ∧ (q == inject_Z a / inject_Z b)%Q.
Proof.
  unfold py_truediv. case_decide; [done|].
  intros [= <-]. split; [done|apply Qred_correct].
Qed.

Lemma average_duration_Return issues avg :
  average_duration issues = Return avg →
  issues ≠ [] ∧
  (avg == inject_Z (sum_Z (present_durations issues)) / inject_Z (len issues))%Q.
Proof.
  unfold average_duration. rewrite omap_filter_hasattr.
  intros [Hlen Havg]%py_truediv_Return. split; [|done].
  intros ->. by apply Hlen.
Qed.

Lemma present_durations_all issues :
  Forall (λ issue, is_Some (duration_days issue)) issues →
  len (present_durations issues) = len issues.
Proof.
  unfold len, present_durations. induction 1 as [|i issues [d Hd] _ IH]; [done|].
  csimpl. rewrite Hd. simpl length. lia.
Qed.

(** C7: when the bottleneck detector hands a chart to rendering, every
    record has a duration and [avg] is their mean; the bottleneck subset is
    exactly the records whose duration is strictly above [avg], in input
    order; the chart has one entry per label of the subset, each label
    counted once for every time a subset record lists it (the number of
    subset records that carry it, when no record repeats a label); the
    counts are in descending order; and labels of equal count stand in the
    order in which the subset first showed them. *)
Theorem bottleneck_analysis_output self issues ls counts :
  bottleneck_analysis self issues = Return (ls, counts) →
  ∃ avg,
    let subset := filter (is_bottleneck avg) issues in
    let seen := subset ≫= labels in
    average_duration issues = Return avg ∧
    (avg == inject_Z (sum_Z (present_durations issues))
            / inject_Z (len (present_durations issues)))%Q ∧
    select_bottlenecks avg issues = Return subset ∧
    (∀ issue, issue ∈ subset ↔ issue ∈ issues ∧ is_bottleneck avg issue) ∧
    length ls = length counts ∧
    NoDup ls ∧
    (∀ l n, (l, n) ∈ zip ls counts ↔ l ∈ seen ∧ n = occurrences l seen) ∧
    (Forall (λ issue, NoDup (labels issue)) subset →
       ∀ l, occurrences l seen
            = len (filter (λ issue, l ∈ labels issue) subset)) ∧
    StronglySorted (λ m n : Z, n <= m) counts ∧
    (∀ c, (filter (λ p, p.2 = c) (zip ls counts)).*1
          = filter (λ l, occurrences l seen = c) (first_seen seen)).
Proof.
  unfold bottleneck_analysis, bottleneck_counts. intros H.
  destruct (average_duration issues) as [avg|] eqn:Eavg; [|done].
  simpl in H.
  destruct (select_bottlenecks avg issues) as [subset|] eqn:Esel; [|done].
  simpl in H.
  destruct (select_bottlenecks_Return _ _ _ Esel) as [-> Hall].
  apply unzip_items_Return in H as (_ & -> & ->).
  set (subset := filter (is_bottleneck avg) issues) in *.
  set (T := count_labels subset) in *.
  set (out := sorted_by_value_reverse T).
  assert (HT : T = tally (subset ≫= labels)) by apply count_labels_tally.
  assert (Hout : out ≡ₚ T) by apply sorted_by_value_reverse_Permutation.
  assert (HTnd : NoDup T.*1)
    by (rewrite HT, tally_keys; apply NoDup_first_seen).
  assert (Hmem : ∀ l n, (l, n) ∈ T ↔
            l ∈ subset ≫= labels ∧ n = occurrences l (subset ≫= labels)).
  { intros l n. split.
    - intros Hin%dict_elem_get; [|done].
      rewrite HT, tally_get in Hin. case_decide; [|done].
      by injection Hin as <-.
    - intros [Hl ->]. apply dict_get_Some_elem.
      by rewrite HT, tally_get, decide_True. }
  exists avg. cbn zeta. fold subset. split_and!.
  - done.
  - apply average_duration_Return in Eavg as [_ Havg].
    by rewrite present_durations_all.
  - done.
  - intros issue. unfold subset. rewrite list_elem_of_filter. tauto.
  - by rewrite !length_fmap.
  - by rewrite Hout.
  - intros l n. by rewrite zip_fst_snd_dict, Hout.
  - intros Hnd l. by apply occurrences_carriers.
  - apply sorted_by_value_reverse_descending.
  - intros c. rewrite zip_fst_snd_dict. unfold out.
    rewrite sorted_by_value_reverse_stable.
    rewrite (filter_value_keys (λ k, occurrences k (subset ≫= labels))).
    + by rewrite HT, tally_keys.
    + intros k v Hin. by apply Hmem in Hin as [_ ->].
Qed.

Lemma bottleneck_analysis_output_scenario_C :
  bottleneck_analysis (mkAnalyzer None) scenario_C = Return (["B"], [1]) ∧
  ∃ avg,
    let subset := filter (is_bottleneck avg) scenario_C in
    let seen := subset ≫= labels in
    average_duration scenario_C = Return avg ∧
    (avg == inject_Z (sum_Z (present_durations scenario_C))
            / inject_Z (len (present_durations scenario_C)))%Q ∧
    select_bottlenecks avg scenario_C = Return subset ∧
    (∀ issue, issue ∈ subset ↔ issue ∈ scenario_C ∧ is_bottleneck avg issue) ∧
    length ["B"] = length [1] ∧
    NoDup ["B"] ∧
    (∀ l n, (l, n) ∈ zip ["B"] [1] ↔ l ∈ seen ∧ n = occurrences l seen) ∧
    (Forall (λ issue, NoDup (labels issue)) subset →
       ∀ l, occurrences l seen
            = len (filter (λ issue, l ∈ labels issue) subset)) ∧
    StronglySorted (λ m n : Z, n <= m) [1] ∧
    (∀ c, (filter (λ p, p.2 = c) (zip ["B"] [1])).*1
          = filter (λ l, occurrences l seen = c) (first_seen seen)).
Proof.
  split; [reflexivity|].
  apply (bottleneck_analysis_output (mkAnalyzer None) scenario_C ["B"] [1]).
  reflexivity.
Defined.

(** ** The label filter *)

(** C8: the label filter is read by the label-duration aggregator only.  The
    monthly trend counter and the bottleneck detector give the same result
    under any filter as under none; the aggregator under a filter is the
    aggregator without filter on the records that carry the filter label;
    and in a run the filter changes neither the heap the passes read nor
    any trend or bottleneck chart that is shown. *)
Theorem label_filter_is_local self σ issues :
  (∀ objs, seasonal_trends_analysis self objs
           = seasonal_trends_analysis (mkAnalyzer None) objs) ∧
  (∀ objs, bottleneck_analysis self objs
           = bottleneck_analysis (mkAnalyzer None) objs) ∧
  (∀ objs, issue_lifecycle_visualization self objs
           = issue_lifecycle_visualization (mkAnalyzer None)
               (filter_by_label self objs)) ∧
  (∀ objs f, label_filter self = Some f → f ≠ "" →
     filter_by_label self objs = filter (λ issue, f ∈ labels issue) objs) ∧
  (∀ objs, label_filter self = None ∨ label_filter self = Some "" →
     filter_by_label self objs = objs) ∧
  (run self σ issues).1 = (run (mkAnalyzer None) σ issues).1 ∧
  (∀ created closed,
     TrendLines created closed ∈ shown (run self σ issues).2 →
     seasonal_trends_analysis (mkAnalyzer None)
       (load (run (mkAnalyzer None) σ issues).1 issues)
     = Return (created, closed)) ∧
  (∀ ls counts,
     BottleneckBars ls counts ∈ shown (run self σ issues).2 →
     bottleneck_analysis (mkAnalyzer None)
       (load (run (mkAnalyzer None) σ issues).1 issues)
     = Return (ls, counts)).
Proof.
  split_and!.
  - done.
  - done.
  - done.
  - intros objs f Hf Hne. unfold filter_by_label. rewrite Hf.
    by rewrite decide_False.
  - intros objs [Hf|Hf]; unfold filter_by_label; by rewrite Hf.
  - done.
  - intros created closed. unfold run; cbn [fst snd].
    destruct (issue_lifecycle_visualization self _) as [[? ?]|]; cbn [shown];
      [|by intros ?%elem_of_nil].
    change (seasonal_trends_analysis self) with
      (seasonal_trends_analysis (mkAnalyzer None)).
    destruct (seasonal_trends_analysis _ _) as [[? ?]|]; cbn [shown].
    + destruct (bottleneck_analysis self _) as [[? ?]|]; cbn [shown];
        rewrite !elem_of_cons, elem_of_nil; intros H;
        destruct_or!; (done || by simplify_eq).
    + rewrite !elem_of_cons, elem_of_nil; intros H; destruct_or!; done.
  - intros ls counts. unfold run; cbn [fst snd].
    destruct (issue_lifecycle_visualization self _) as [[? ?]|]; cbn [shown];
      [|by intros ?%elem_of_nil].
    destruct (seasonal_trends_analysis self _) as [[? ?]|]; cbn [shown].
    + change (bottleneck_analysis self) with
        (bottleneck_analysis (mkAnalyzer None)).
      destruct (bottleneck_analysis _ _) as [[? ?]|]; cbn [shown];
        rewrite !elem_of_cons, elem_of_nil; intros H;
        destruct_or!; (done || by simplify_eq).
    + rewrite !elem_of_cons, elem_of_nil; intros H; destruct_or!; done.
Qed.

(** ** Empty aggregates *)

(** C4, as stated, fails: with an empty mapping both methods end in an
    exception instead of returning. *)
Lemma empty_aggregate_is_raised :
  avg_label_durations (mkAnalyzer None) [] = Return [] ∧
  issue_lifecycle_visualization (mkAnalyzer None) [] = Raise ValueError ∧
  bottleneck_counts [lone_issue] = Return [] ∧
  bottleneck_analysis (mkAnalyzer None) [lone_issue] = Raise ValueError.
Proof. repeat split; reflexivity. Qed.

(** C4, amended: when an aggregation comes out empty no chart is made, and
    the method does not return: unpacking the empty mapping raises
    [ValueError] to the caller.  This holds for the label means, for the
    bottleneck counts, and in particular when the bottleneck subset is
    empty; a non-empty mapping is handed to rendering as it is (sorted by
    count, for the bottleneck chart). *)
Theorem empty_aggregate_raises_ValueError self issues :
  (avg_label_durations self issues = Return [] →
     issue_lifecycle_visualization self issues = Raise ValueError) ∧
  (bottleneck_counts issues = Return [] →
     bottleneck_analysis self issues = Raise ValueError) ∧
  (∀ avg, average_duration issues = Return avg →
     select_bottlenecks avg issues = Return [] →
     bottleneck_analysis self issues = Raise ValueError) ∧
  (∀ m, avg_label_durations self issues = Return m → m ≠ [] →
     issue_lifecycle_visualization self issues = Return (m.*1, m.*2)) ∧
  (∀ m, bottleneck_counts issues = Return m → m ≠ [] →
     bottleneck_analysis self issues
     = Return ((sorted_by_value_reverse m).*1, (sorted_by_value_reverse m).*2)).
Proof.
  unfold issue_lifecycle_visualization, bottleneck_analysis. split_and!.
  - by intros ->.
  - by intros ->.
  - intros avg Havg Hsel. unfold bottleneck_counts. by rewrite Havg; simpl; rewrite Hsel.
  - intros m -> Hm. simpl. by destruct m.
  - intros m -> Hm. simpl.
    assert (sorted_by_value_reverse m ≠ []) as Hs.
    { intros Hs. apply Hm, Permutation_nil_r.
      by rewrite <- Hs, sorted_by_value_reverse_Permutation. }
    by destruct (sorted_by_value_reverse m).
Qed.

(** ** Where the code departs from the specification *)

(** Line 103 divides the sum of the present durations by the number of all
    records. *)
Lemma average_duration_unfold issues :
  average_duration issues
  = py_truediv (sum_Z (present_durations issues)) (len issues).
Proof. unfold average_duration. by rewrite omap_filter_hasattr. Qed.

(** C1: the code's mean counts the record without duration in the
    denominator: it is 4/2 where the mean of the present durations is 4/1. *)
Theorem average_duration_divides_by_all_records :
  average_duration half_dated = Return 2%Q ∧
  mean_of_present_durations half_dated = Return 4%Q ∧
  present_durations half_dated = [4] ∧
  len half_dated = 2.
Proof. repeat split; reflexivity. Qed.

(** C2: a labelled record without duration is not skipped by the
    label-duration aggregator: reading its [duration_days] raises
    [AttributeError], with and without other records around it, while the
    bottleneck detector's sum guards the same read with [hasattr]. *)
Theorem issue_lifecycle_visualization_reads_absent_duration :
  issue_lifecycle_visualization (mkAnalyzer None) undated
  = Raise AttributeError ∧
  issue_lifecycle_visualization (mkAnalyzer None) half_dated
  = Raise AttributeError ∧
  issue_lifecycle_visualization (mkAnalyzer (Some "bug")) half_dated
  = Raise AttributeError ∧
  present_durations half_dated = [4].
Proof. repeat split; reflexivity. Qed.

(** C3: with records but no duration at all, line 103 does not fail: it
    yields the mean 0, and the detector stops only afterwards, on the
    attribute read of line 105.  Only the empty sequence fails in the
    division. *)
Theorem average_duration_zero_without_durations :
  present_durations undated = [] ∧
  average_duration undated = Return 0%Q ∧
  mean_of_present_durations undated = Raise ZeroDivisionError ∧
  bottleneck_analysis (mkAnalyzer None) undated = Raise AttributeError ∧
  bottleneck_analysis (mkAnalyzer None) [] = Raise ZeroDivisionError.
Proof. repeat split; reflexivity. Qed.

(** C6: when the records with a creation date and those with an update date
    differ in number, the two columns cannot share a [DataFrame]: the
    constructor raises [ValueError] and no table is built. *)
Theorem seasonal_trends_analysis_unequal_columns :
  month_column created_date never_updated = ["2024-01"] ∧
  month_column updated_date never_updated = [] ∧
  seasonal_trends_analysis (mkAnalyzer None) never_updated = Raise ValueError.
Proof. repeat split; reflexivity. Qed.

(** ** The label-duration aggregator on records that have their durations *)

Lemma append_duration_upsert issue acc label d :
  duration_days issue = Some d →
  append_duration issue acc label = Return (group_step acc (label, d)).
Proof.
  intros Hd. unfold append_duration, get_duration_days, group_step,
    upsert_step, upsert. rewrite Hd. simpl. f_equal.
  destruct (dict_get acc label) eqn:E; simpl.
  - by rewrite E.
  - rewrite dict_get_set, decide_True by done. simpl. apply dict_set_set.
Qed.

Lemma append_durations_dated issue d ls : ∀ acc,
  duration_days issue = Some d →
  for_each (append_duration issue) ls acc
  = Return (foldl group_step acc ((λ l, (l, d)) <$> ls)).
Proof.
  induction ls as [|l ls IH]; intros acc Hd; [done|].
  cbn [for_each]. rewrite (append_duration_upsert _ _ _ d) by done.
  simpl. by apply IH.
Qed.

Lemma append_durations_undated issue l ls acc :
  duration_days issue = None →
  for_each (append_duration issue) (l :: ls) acc = Raise AttributeError.
Proof.
  intros Hd. cbn [for_each].
  unfold append_duration, get_duration_days. by rewrite Hd.
Qed.

Lemma collect_from issues : ∀ acc,
  for_each (λ acc issue, for_each (append_duration issue) (labels issue) acc)
           issues acc
  = if decide (Forall dated_if_labelled issues)
    then Return (foldl group_step acc (label_duration_pairs issues))
    else Raise AttributeError.
Proof.
  induction issues as [|i issues IH]; intros acc.
  - by rewrite decide_True by constructor.
  - cbn [for_each]. unfold label_duration_pairs. csimpl.
    destruct (duration_days i) as [d|] eqn:Ed.
    + rewrite (append_durations_dated _ d) by done. simpl.
      rewrite IH, foldl_app.
      destruct (decide (Forall dated_if_labelled issues)) as [H|H].
      * rewrite decide_True; [done|].
        constructor; [|done]. intros _. by rewrite Ed.
      * rewrite decide_False; [done|]. by intros [_ ?]%Forall_cons.
    + destruct (labels i) as [|l ls] eqn:El.
      * simpl. rewrite IH.
        destruct (decide (Forall dated_if_labelled issues)) as [H|H].
        -- rewrite decide_True; [done|].
           constructor; [|done]. intros Hne. by rewrite El in Hne.
        -- rewrite decide_False; [done|]. by intros [_ ?]%Forall_cons.
      * rewrite append_durations_undated by done. simpl.
        rewrite decide_False; [done|]. intros [Hi _]%Forall_cons.
        unfold dated_if_labelled in Hi. rewrite El, Ed in Hi.
        by destruct Hi as [? ?].
Qed.

Lemma collect_label_durations_eq issues :
  collect_label_durations issues
  = if decide (Forall dated_if_labelled issues)
    then Return (foldl group_step [] (label_duration_pairs issues))
    else Raise AttributeError.
Proof. apply collect_from. Qed.

Lemma foldl_snoc {X : Type} (xs : list X) : ∀ v, foldl (λ v x, v ++ [x]) v xs = v ++ xs.
Proof.
  induction xs as [|x xs IH]; intros v; simpl; [by rewrite app_nil_r|].
  by rewrite IH, <- app_assoc.
Qed.

Lemma grouped_get ps k :
  dict_get (foldl group_step [] ps) k
  = if decide (values_of k ps = []) then None else Some (values_of k ps).
Proof.
  unfold group_step. rewrite upsert_fold_get. simpl.
  destruct (values_of k ps) as [|x xs]; [done|].
  rewrite decide_False by done. f_equal.
  change (foldl (λ v y, v ++ [y]) [] (x :: xs) = x :: xs).
  by rewrite foldl_snoc.
Qed.

Lemma grouped_elem ps k ds :
  (k, ds) ∈ foldl group_step [] ps ↔ ds ≠ [] ∧ ds = values_of k ps.
Proof.
  assert (NoDup (foldl group_step [] ps).*1) as Hnd.
  { unfold group_step. rewrite upsert_fold_keys_nil. apply NoDup_first_seen. }
  split.
  - intros Hin%dict_elem_get; [|done]. rewrite grouped_get in Hin.
    case_decide; [done|]. by injection Hin as <-.
  - intros [Hne ->]. apply dict_get_Some_elem.
    by rewrite grouped_get, decide_False.
Qed.

Lemma average_label_durations_nonempty D :
  Forall (λ p, p.2 ≠ []) D →
  average_label_durations D = Return ((λ p, (p.1, mean p.2)) <$> D).
Proof.
  induction 1 as [|[k ds] D Hds _ IH]; [done|].
  cbn [average_label_durations]. unfold py_truediv.
  rewrite decide_False.
  - simpl. by rewrite IH.
  - unfold len. destruct ds; [done|]. simpl length. lia.
Qed.

Lemma label_duration_pairs_keys issues :
  Forall dated_if_labelled issues →
  (label_duration_pairs issues).*1 = issues ≫= labels.
Proof.
  unfold label_duration_pairs.
  induction 1 as [|i issues Hi _ IH]; [done|]. csimpl.
  rewrite fmap_app, IH. f_equal.
  destruct (duration_days i) as [d|] eqn:Ed.
  - rewrite <- list_fmap_compose. apply list_fmap_id.
  - destruct (labels i) eqn:El; [done|].
    unfold dated_if_labelled in Hi. rewrite El, Ed in Hi.
    by destruct Hi as [? ?].
Qed.

Lemma avg_label_durations_eq self issues :
  avg_label_durations self issues
  = let part := filter_by_label self issues in
    if decide (Forall dated_if_labelled part)
    then Return ((λ p, (p.1, mean p.2))
                   <$> foldl group_step [] (label_duration_pairs part))
    else Raise AttributeError.
Proof.
  unfold avg_label_durations. cbn zeta.
  rewrite collect_label_durations_eq. case_decide; [|done].
  simpl. apply average_label_durations_nonempty.
  apply Forall_forall. intros [k ds] Hin. by apply grouped_elem in Hin as [? _].
Qed.

(** X1: the label-duration aggregator computes its mapping exactly when every
    participating record that lists a label has a duration, and fails with
    [AttributeError] otherwise.  The mapping has the labels of the
    participating records in order of first appearance, and gives each the
    mean of the durations of the participating records that list it, a
    record counting once for each time it lists the label. *)
Theorem label_means_of_dated_records self issues :
  let part := filter_by_label self issues in
  let pairs := label_duration_pairs part in
  (Forall dated_if_labelled part
   ↔ ∃ m, avg_label_durations self issues = Return m) ∧
  (¬ Forall dated_if_labelled part →
   avg_label_durations self issues = Raise AttributeError) ∧
  (∀ m, avg_label_durations self issues = Return m →
     m.*1 = first_seen (part ≫= labels) ∧
     ∀ l q, (l, q) ∈ m ↔
       values_of l pairs ≠ [] ∧
       q = Qred (inject_Z (sum_Z (values_of l pairs))
                 / inject_Z (len (values_of l pairs)))).
Proof.
  cbn zeta. rewrite avg_label_durations_eq. cbn zeta.
  set (part := filter_by_label self issues).
  set (pairs := label_duration_pairs part).
  destruct (decide (Forall dated_if_labelled part)) as [Hd|Hd]; split_and!.
  - split; [eauto|done].
  - done.
  - intros m [= <-]. split.
    + rewrite <- list_fmap_compose.
      change (fst ∘ (λ p : string * list Z, (p.1, mean p.2)))
        with (@fst string (list Z)).
      unfold group_step. rewrite upsert_fold_keys_nil. unfold pairs.
      by rewrite label_duration_pairs_keys.
    + intros l q. rewrite list_elem_of_fmap. split.
      * intros ([k ds] & [= -> ->] & Hin). simpl.
        apply grouped_elem in Hin as [Hne ->]. done.
      * intros [Hne ->]. exists (l, values_of l pairs). split; [done|].
        by apply grouped_elem.
  - split; [done|]. by intros [m ?].
  - done.
  - done.
Qed.

(** ** The monthly trend counter on columns of equal length *)

Lemma string_leb_ltb a b : String.leb a b = true → a ≠ b → String.ltb a b = true.
Proof.
  unfold String.leb, String.ltb. intros Hle Hne.
  destruct (String.compare a b) eqn:E; try done.
  by apply String.compare_eq_iff in E.
Qed.

Lemma string_ltb_trans a b c :
  String.ltb a b = true → String.ltb b c = true → String.ltb a c = true.
Proof.
  unfold String.ltb. intros Hab Hbc.
  destruct (String.compare a b) eqn:Eab; try done.
  destruct (String.compare b c) eqn:Ebc; try done.
  apply OrderedTypeEx.String_as_OT.cmp_lt in Eab, Ebc.
  pose proof (OrderedTypeEx.String_as_OT.lt_trans _ _ _ Eab Ebc) as Hac.
  apply OrderedTypeEx.String_as_OT.cmp_lt in Hac.
  unfold OrderedTypeEx.String_as_OT.cmp in Hac. by rewrite Hac.
Qed.

(** Adjacent keys in [≤] order and no key twice: strictly ascending. *)
Lemma Sorted_leb_NoDup_ltb ks :
  Sorted (λ a b, String.leb a b = true) ks → NoDup ks →
  StronglySorted (λ a b, String.ltb a b = true) ks.
Proof.
  intros Hs Hnd.
  apply Sorted_StronglySorted; [intros a b c; apply string_ltb_trans|].
  induction Hs as [|a ks Hs IH Hhd]; [constructor|].
  apply NoDup_cons in Hnd as [Ha Hnd]. constructor; [by apply IH|].
  destruct Hhd as [|b ks Hab]; constructor.
  apply string_leb_ltb; [done|]. intros ->. apply Ha, list_elem_of_here.
Qed.

Lemma sort_index_Permutation s : sort_index s ≡ₚ s.
Proof. apply stable_sort_Permutation. Qed.

Lemma sort_index_Sorted s :
  Sorted (λ a b, String.leb a b = true) (sort_index s).*1.
Proof.
  apply Sorted_fmap with (R1 := λ x y : string * Z, String.leb x.1 y.1 = true);
    [done|].
  apply (stable_sort_Sorted (λ x y : string * Z, String.leb x.1 y.1)).
  intros a b. apply String.leb_total.
Qed.

Lemma sort_index_value_counts column :
  month_table column (sort_index (value_counts column)).
Proof.
  set (t := sort_index (value_counts column)).
  assert (Hperm : t ≡ₚ tally column).
  { unfold t, value_counts.
    by rewrite sort_index_Permutation, sorted_by_value_reverse_Permutation. }
  assert (Hnd : NoDup (tally column).*1)
    by (rewrite tally_keys; apply NoDup_first_seen).
  split.
  - intros month n. rewrite Hperm. split.
    + intros Hin%dict_elem_get; [|done]. rewrite tally_get in Hin.
      case_decide; [|done]. by injection Hin as <-.
    + intros [Hm ->]. apply dict_get_Some_elem.
      by rewrite tally_get, decide_True.
  - apply Sorted_leb_NoDup_ltb; [apply sort_index_Sorted|].
    by rewrite Hperm.
Qed.

(** X2: the monthly trend counter builds its two tables exactly when as many
    records have a creation date as have an update date, and raises
    [ValueError] otherwise.  Each table then holds the months observed in
    its own column, each with the number of records whose timestamp falls
    in it, in strictly ascending order of the month strings. *)
Theorem monthly_tables_of_equal_columns self issues :
  let created := month_column created_date issues in
  let closed := month_column updated_date issues in
  (length created = length closed
   ↔ ∃ tables, seasonal_trends_analysis self issues = Return tables) ∧
  (length created ≠ length closed →
   seasonal_trends_analysis self issues = Raise ValueError) ∧
  (∀ created_counts closed_counts,
     seasonal_trends_analysis self issues
     = Return (created_counts, closed_counts) →
     month_table created created_counts ∧ month_table closed closed_counts).
Proof.
  cbn zeta. unfold seasonal_trends_analysis, DataFrame.
  case_decide as Hlen; simpl; split_and!.
  - split; [eauto|done].
  - done.
  - intros ? ? [= <- <-]. split; apply sort_index_value_counts.
  - split; [done|]. by intros [? ?].
  - done.
  - done.
Qed.

(** ** Month strings and calendar months *)





(** ** How the bottleneck detector ends *)

Lemma select_bottlenecks_eq avg issues :
  select_bottlenecks avg issues
  = if decide (Forall (λ issue, is_Some (duration_days issue)) issues)
    then Return (filter (is_bottleneck avg) issues)
    else Raise AttributeError.
Proof.
  destruct (select_bottlenecks avg issues) as [subset|e] eqn:E.
  - apply select_bottlenecks_Return in E as [-> Hall].
    by rewrite decide_True.
  - rewrite decide_False.
    + revert e E. induction issues as [|i issues IH]; intros e; [done|].
      simpl. unfold get_duration_days.
      destruct (duration_days i); simpl; [|by intros [= <-]].
      destruct (select_bottlenecks avg issues); simpl; [done|].
      intros [= <-]. by apply IH.
    + intros Hall. revert e E.
      induction Hall as [|i issues [d Hd] _ IH]; intros e; [done|].
      simpl. unfold get_duration_days. rewrite Hd. simpl.
      destruct (select_bottlenecks avg issues); simpl; [done|].
      intros [= <-]. by eapply IH.
Qed.

Lemma average_duration_nonempty issues :
  issues ≠ [] → ∃ avg, average_duration issues = Return avg.
Proof.
  intros Hne. rewrite average_duration_unfold. unfold py_truediv.
  rewrite decide_False; [eauto|].
  unfold len. destruct issues; [done|]. simpl length. lia.
Qed.

(** When every record has a duration the code's mean is the mean of the
    present durations. *)
Lemma average_duration_all_dated issues :
  Forall (λ issue, is_Some (duration_days issue)) issues →
  average_duration issues = mean_of_present_durations issues.
Proof.
  intros Hall. rewrite average_duration_unfold.
  unfold mean_of_present_durations. by rewrite present_durations_all.
Qed.

(** X4: the four ways the bottleneck detector can end, by input: no record at
    all, [ZeroDivisionError] on line 103; some record without duration,
    [AttributeError] on line 105; every record dated but no label among the
    records above the mean, [ValueError] on line 115; otherwise the chart. *)
Theorem bottleneck_analysis_outcomes self issues :
  (issues = [] → bottleneck_analysis self issues = Raise ZeroDivisionError) ∧
  (issues ≠ [] →
   ¬ Forall (λ issue, is_Some (duration_days issue)) issues →
   bottleneck_analysis self issues = Raise AttributeError) ∧
  (issues ≠ [] →
   Forall (λ issue, is_Some (duration_days issue)) issues →
   ∃ avg, average_duration issues = Return avg ∧
     mean_of_present_durations issues = Return avg ∧
     let seen := filter (is_bottleneck avg) issues ≫= labels in
     (seen = [] → bottleneck_analysis self issues = Raise ValueError) ∧
     (seen ≠ [] → ∃ series, bottleneck_analysis self issues = Return series)).
Proof.
  unfold bottleneck_analysis, bottleneck_counts. split_and!.
  - by intros ->.
  - intros Hne Hnot. destruct (average_duration_nonempty _ Hne) as [avg ->].
    simpl. by rewrite select_bottlenecks_eq, decide_False.
  - intros Hne Hall. destruct (average_duration_nonempty _ Hne) as [avg Havg].
    exists avg. split_and!; [done|by rewrite <- average_duration_all_dated|..];
      cbn zeta; rewrite Havg; simpl;
      rewrite select_bottlenecks_eq, decide_True by done; simpl;
      rewrite count_labels_tally.
    + by intros ->.
    + intros Hseen.
      destruct (sorted_by_value_reverse _) as [|p out] eqn:E; simpl; [|eauto].
      exfalso. apply Hseen.
      pose proof (sorted_by_value_reverse_Permutation
                    (tally (filter (is_bottleneck avg) issues ≫= labels))) as HP.
      rewrite E in HP. apply Permutation_nil in HP.
      apply (f_equal (fmap fst)) in HP. rewrite tally_keys in HP.
      destruct (filter (is_bottleneck avg) issues ≫= labels); [done|].
      discriminate HP.
Qed.

(** ** How a run ends *)

Lemma first_seen_nil ks : first_seen ks = [] ↔ ks = [].
Proof. destruct ks; simpl; split; intros; done. Qed.

Lemma filter_by_label_nil self : filter_by_label self [] = [].
Proof.
  unfold filter_by_label. destruct (label_filter self); [|done].
  by case_decide.
Qed.

(** The label-duration aggregator, by cases on its records. *)
Lemma issue_lifecycle_visualization_cases self issues :
  let part := filter_by_label self issues in
  (¬ Forall dated_if_labelled part ∧
   issue_lifecycle_visualization self issues = Raise AttributeError) ∨
  (Forall dated_if_labelled part ∧ part ≫= labels = [] ∧
   issue_lifecycle_visualization self issues = Raise ValueError) ∨
  (Forall dated_if_labelled part ∧ part ≫= labels ≠ [] ∧
   ∃ series, issue_lifecycle_visualization self issues = Return series).
Proof.
  cbn zeta. unfold issue_lifecycle_visualization.
  rewrite avg_label_durations_eq. cbn zeta.
  set (part := filter_by_label self issues).
  destruct (decide (Forall dated_if_labelled part)) as [Hd|Hd]; [|by left].
  right. simpl.
  assert (((λ p : string * list Z, (p.1, mean p.2))
             <$> foldl group_step [] (label_duration_pairs part)).*1
          = first_seen (part ≫= labels)) as Hkeys.
  { rewrite <- list_fmap_compose.
    change (fst ∘ (λ p : string * list Z, (p.1, mean p.2)))
      with (@fst string (list Z)).
    unfold group_step. rewrite upsert_fold_keys_nil.
    by rewrite label_duration_pairs_keys. }
  destruct ((λ p : string * list Z, (p.1, mean p.2))
              <$> foldl group_step [] (label_duration_pairs part))
    as [|p m] eqn:E.
  - left. split_and!; [done| |done]. by apply first_seen_nil.
  - right. split_and!; [done| |by eexists].
    intros Hnil. rewrite Hnil in Hkeys. done.
Qed.

(** The bottleneck detector's exceptions, by cause. *)
Lemma bottleneck_analysis_Raise self issues e :
  bottleneck_analysis self issues = Raise e →
  (e = ZeroDivisionError ∧ issues = []) ∨
  (e = AttributeError ∧ issues ≠ [] ∧
   ¬ Forall (λ issue, is_Some (duration_days issue)) issues) ∨
  (e = ValueError ∧ issues ≠ [] ∧
   Forall (λ issue, is_Some (duration_days issue)) issues).
Proof.
  unfold bottleneck_analysis, bottleneck_counts.
  destruct (decide (issues = [])) as [->|Hne].
  - intros [= <-]. by left.
  - destruct (average_duration_nonempty _ Hne) as [avg ->]. simpl.
    rewrite select_bottlenecks_eq. case_decide; simpl.
    + destruct (sorted_by_value_reverse _); simpl; [|done].
      intros [= <-]. right; right. done.
    + intros [= <-]. right; left. done.
Qed.

Lemma seasonal_trends_analysis_Raise self issues e :
  seasonal_trends_analysis self issues = Raise e →
  e = ValueError ∧
  length (month_column created_date issues)
  ≠ length (month_column updated_date issues).
Proof.
  unfold seasonal_trends_analysis, DataFrame. case_decide; simpl; [done|].
  by intros [= <-].
Qed.


(** X5: a run never ends in [ZeroDivisionError].  The division of line 103
    fails only on an empty record list, and on an empty list the first
    chart already stops the run with [ValueError], so the bottleneck
    detector is not reached. *)
Theorem run_never_divides_by_zero self σ issues :
  uncaught (run self σ issues).2 ≠ Some ZeroDivisionError ∧
  (load σ issues = [] →
   (run self σ issues).2 = mkTrace [] (Some ValueError)).
Proof.
  unfold run; cbn [snd]. rewrite load_calculate.
  set (objs := derive_duration <$> load σ issues).
  split.
  - destruct (issue_lifecycle_visualization_cases self objs)
      as [[_ H]|[(_ & _ & H)|(_ & Hne & [[ls avgs] H])]];
      rewrite H; cbn [uncaught]; try done.
    destruct (seasonal_trends_analysis self objs) as [[c d]|e] eqn:Es.
    + destruct (bottleneck_analysis self objs) as [[bl n]|e] eqn:Eb;
        cbn [uncaught]; [done|].
      apply bottleneck_analysis_Raise in Eb
        as [[-> ->]|[(-> & _)|(-> & _)]]; try done.
      rewrite filter_by_label_nil in Hne. done.
    + cbn [uncaught]. by apply seasonal_trends_analysis_Raise in Es as [-> _].
  - intros Hnil. unfold objs. rewrite Hnil. csimpl.
    destruct (issue_lifecycle_visualization_cases self [])
      as [[Hnd _]|[(_ & _ & H)|(_ & Hne & _)]].
    + exfalso. apply Hnd. rewrite filter_by_label_nil. constructor.
    + by rewrite H.
    + rewrite filter_by_label_nil in Hne. done.
Qed.

(** ** Runs on complete records *)









(** ** Sign and calendar reading of a duration *)

Lemma days_sub_sign (u c : datetime.t) :
  0 <= datetime.days (datetime.sub u c)
  ↔ datetime.to_microseconds c <= datetime.to_microseconds u.
Proof.
  pose proof (days_sub_floor u c) as H. cbn zeta in H.
  unfold datetime.MICROSECONDS_PER_DAY in H. lia.
Qed.

Lemma days_sub_calendar (u c : datetime.t) :
  valid_time u → valid_time c →
  datetime.days (datetime.sub u c)
  = datetime.toordinal u - datetime.toordinal c
    - (if time_of_day u <? time_of_day c then 1 else 0).
Proof.
  unfold valid_time. intros (Hh & Hm & Hs & Hus) (Hh' & Hm' & Hs' & Hus').
  pose proof (days_sub_floor u c) as H. cbn zeta in H.
  unfold datetime.MICROSECONDS_PER_DAY, datetime.to_microseconds in H.
  unfold time_of_day. destruct (Z.ltb_spec
    ((datetime.second u + datetime.minute u * 60 + datetime.hour u * 3600)
     * 1000000 + datetime.microsecond u)
    ((datetime.second c + datetime.minute c * 60 + datetime.hour c * 3600)
     * 1000000 + datetime.microsecond c)); lia.
Qed.

(** X7: the duration the deriver stores for a record with both timestamps
    is negative exactly when the update precedes the creation, and it
    counts elapsed days, not date changes: it is the difference of the two
    calendar dates, less one when the update's time of day is earlier than
    the creation's. *)
Theorem calculate_issue_durations_calendar self σ issues l issue c u :
  l ∈ issues →
  σ !! l = Some issue →
  created_date issue = Some c →
  updated_date issue = Some u →
  ∃ issue' d,
    calculate_issue_durations self σ issues !! l = Some issue' ∧
    duration_days issue' = Some d ∧
    (0 <= d ↔ datetime.to_microseconds c <= datetime.to_microseconds u) ∧
    (valid_time u → valid_time c →
     d = datetime.toordinal u - datetime.toordinal c
         - (if time_of_day u <? time_of_day c then 1 else 0)).
Proof.
  intros Hl Hσ Hc Hu.
  exists (derive_duration issue), (datetime.days (datetime.sub u c)).
  split_and!.
  - by rewrite lookup_calculate, decide_True, Hσ.
  - unfold derive_duration. by rewrite Hc, Hu.
  - apply days_sub_sign.
  - apply days_sub_calendar.
Qed.

Lemma calculate_issue_durations_calendar_overnight :
  (1%positive ∈ [1%positive] ∧ overnight_heap !! 1%positive = Some overnight) ∧
  ∃ issue' d,
    calculate_issue_durations (mkAnalyzer None) overnight_heap [1%positive]
      !! 1%positive = Some issue' ∧
    duration_days issue' = Some d ∧
    (0 <= d ↔ datetime.to_microseconds (datetime.mk 2023 12 31 23 0 0 0)
              <= datetime.to_microseconds (datetime.mk 2024 1 1 1 0 0 0)) ∧
    (valid_time (datetime.mk 2024 1 1 1 0 0 0) →
     valid_time (datetime.mk 2023 12 31 23 0 0 0) →
     d = datetime.toordinal (datetime.mk 2024 1 1 1 0 0 0)
         - datetime.toordinal (datetime.mk 2023 12 31 23 0 0 0)
         - (if time_of_day (datetime.mk 2024 1 1 1 0 0 0)
               <? time_of_day (datetime.mk 2023 12 31 23 0 0 0)
            then 1 else 0)).
Proof.
  split; [split; [apply list_elem_of_here|reflexivity]|].
  apply (calculate_issue_durations_calendar (mkAnalyzer None) overnight_heap
           [1%positive] 1%positive overnight);
    [apply list_elem_of_here|reflexivity..].
Defined.

(** ** The bar chart of the label means *)

(** The two series of the first chart, read off the participating
    records. *)
Lemma issue_lifecycle_visualization_Return self issues ls avgs :
  issue_lifecycle_visualization self issues = Return (ls, avgs) →
  let part := filter_by_label self issues in
  Forall dated_if_labelled part ∧
  ls = first_seen (part ≫= labels) ∧
  ls ≠ [] ∧
  avgs = (λ l, mean (values_of l (label_duration_pairs part))) <$> ls.
Proof.
  cbn zeta. unfold issue_lifecycle_visualization.
  rewrite avg_label_durations_eq. cbn zeta.
  set (part := filter_by_label self issues).
  set (pairs := label_duration_pairs part).
  case_decide as Hd; [|done]. simpl.
  set (D := foldl group_step [] pairs).
  intros (Hne & -> & ->)%unzip_items_Return.
  assert (D.*1 = first_seen (part ≫= labels)) as Hkeys.
  { unfold D, group_step. rewrite upsert_fold_keys_nil.
    unfold pairs. by rewrite label_duration_pairs_keys. }
  assert (((λ p : string * list Z, (p.1, mean p.2)) <$> D).*1 = D.*1) as Hfst.
  { by rewrite <- list_fmap_compose. }
  split_and!.
  - done.
  - by rewrite Hfst.
  - rewrite Hfst. intros HD. apply Hne.
    apply fmap_nil_inv in HD. by rewrite HD.
  - rewrite Hfst, <- !list_fmap_compose.
    apply list_fmap_ext. intros i [k ds] Hi. simpl.
    apply list_elem_of_lookup_2 in Hi. unfold D in Hi.
    by apply grouped_elem in Hi as [_ ->].
Qed.

(** X8: under a label filter the chart always has a bar for the filter label
    itself, and every other bar belongs to a label that some record lists
    together with the filter label; no label is charted twice, and each
    bar is the mean of the durations of the participating records that
    list its label. *)
Theorem issue_lifecycle_visualization_filtered self issues f ls avgs :
  label_filter self = Some f →
  f ≠ "" →
  issue_lifecycle_visualization self issues = Return (ls, avgs) →
  let part := filter (λ issue, f ∈ labels issue) issues in
  f ∈ ls ∧
  NoDup ls ∧
  (∀ l, l ∈ ls ↔
     ∃ issue, issue ∈ issues ∧ f ∈ labels issue ∧ l ∈ labels issue) ∧
  avgs = (λ l, mean (values_of l (label_duration_pairs part))) <$> ls.
Proof.
  intros Hf Hne (Hd & -> & Hls & ->)%issue_lifecycle_visualization_Return.
  assert (filter_by_label self issues
          = filter (λ issue, f ∈ labels issue) issues) as Hpart.
  { unfold filter_by_label. by rewrite Hf, decide_False. }
  rewrite Hpart in *. clear Hpart. cbn zeta. set (part := filter (λ issue, f ∈ labels issue) issues) in *.
  assert (∀ l, l ∈ first_seen (part ≫= labels) ↔
            ∃ issue, issue ∈ issues ∧ f ∈ labels issue ∧ l ∈ labels issue)
    as Hmem.
  { intros l. rewrite elem_of_first_seen, list_elem_of_bind. unfold part.
    split.
    - intros (i & Hl & [Hfi Hi]%list_elem_of_filter). eauto.
    - intros (i & Hi & Hfi & Hl). exists i. split; [done|].
      by apply list_elem_of_filter. }
  split_and!; [|apply NoDup_first_seen|done|done].
  apply Hmem. destruct (part ≫= labels) as [|l0 rest] eqn:E; [done|].
  assert (l0 ∈ part ≫= labels) as Hl0 by (rewrite E; apply list_elem_of_here).
  apply list_elem_of_bind in Hl0 as (i & _ & [Hfi Hi]%list_elem_of_filter).
  eauto.
Qed.

Lemma issue_lifecycle_visualization_filtered_ui :
  let self := mkAnalyzer (Some "ui") in
  let issues := [ mkIssue 1 None None ["bug"] (Some 4);
                  mkIssue 2 None None ["bug"; "ui"] (Some 10) ] in
  (label_filter self = Some "ui" ∧ "ui" ≠ "" ∧
   issue_lifecycle_visualization self issues
   = Return (["bug"; "ui"], [10%Q; 10%Q])) ∧
  let part := filter (λ issue, "ui" ∈ labels issue) issues in
  "ui" ∈ ["bug"; "ui"] ∧
  NoDup ["bug"; "ui"] ∧
  (∀ l, l ∈ ["bug"; "ui"] ↔
     ∃ issue, issue ∈ issues ∧ "ui" ∈ labels issue ∧ l ∈ labels issue) ∧
  [10%Q; 10%Q]
  = (λ l, mean (values_of l (label_duration_pairs part))) <$> ["bug"; "ui"].
Proof.
  cbn zeta. split; [split_and!; [reflexivity|discriminate|reflexivity]|].
  apply (issue_lifecycle_visualization_filtered (mkAnalyzer (Some "ui"))
           [ mkIssue 1 None None ["bug"] (Some 4);
             mkIssue 2 None None ["bug"; "ui"] (Some 10) ]
           "ui" ["bug"; "ui"] [10%Q; 10%Q]);
    [reflexivity|discriminate|reflexivity].
Defined.

(** ** The order of the records *)

Lemma foldl_add_shift (xs : list Z) : ∀ a, foldl Z.add a xs = a + sum_Z xs.
Proof.
  unfold sum_Z. induction xs as [|x xs IH]; intros a; cbn [foldl]; [lia|].
  rewrite (IH (a + x)), (IH (0 + x)). lia.
Qed.

Lemma sum_Z_cons x xs : sum_Z (x :: xs) = x + sum_Z xs.
Proof. unfold sum_Z at 1. simpl. apply foldl_add_shift. Qed.

Lemma sum_Z_app xs ys : sum_Z (xs ++ ys) = sum_Z xs + sum_Z ys.
Proof.
  induction xs as [|x xs IH]; [done|]. simpl.
  rewrite !sum_Z_cons, IH. lia.
Qed.

Lemma sum_Z_Permutation xs ys : xs ≡ₚ ys → sum_Z xs = sum_Z ys.
Proof.
  induction 1 as [|x xs ys _ IH|x y xs|xs ys zs _ IH1 _ IH2];
    rewrite ?sum_Z_cons; try lia; done.
Qed.

Lemma len_Permutation {A : Type} (xs ys : list A) : xs ≡ₚ ys → len xs = len ys.
Proof. unfold len. by intros ->. Qed.

Lemma occurrences_Permutation k ks ks' :
  ks ≡ₚ ks' → occurrences k ks = occurrences k ks'.
Proof. unfold occurrences. intros H. apply len_Permutation. by rewrite H. Qed.

Lemma elem_of_tally ks k n :
  (k, n) ∈ tally ks ↔ k ∈ ks ∧ n = occurrences k ks.
Proof.
  assert (NoDup (tally ks).*1) as Hnd
    by (rewrite tally_keys; apply NoDup_first_seen).
  split.
  - intros Hin%dict_elem_get; [|done]. rewrite tally_get in Hin.
    case_decide; [|done]. by injection Hin as <-.
  - intros [Hk ->]. apply dict_get_Some_elem.
    by rewrite tally_get, decide_True.
Qed.

(** The tally of a reordered sequence has the same entries. *)
Lemma tally_Permutation ks ks' : ks ≡ₚ ks' → tally ks ≡ₚ tally ks'.
Proof.
  intros H. apply NoDup_Permutation.
  - apply (NoDup_fmap_1 fst). rewrite tally_keys. apply NoDup_first_seen.
  - apply (NoDup_fmap_1 fst). rewrite tally_keys. apply NoDup_first_seen.
  - intros [k n]. rewrite !elem_of_tally.
    rewrite (occurrences_Permutation k ks ks') by done.
    split; intros [Hk ->]; (split; [|done]); [by rewrite <- H|by rewrite H].
Qed.

Lemma string_ltb_irrefl a : String.ltb a a = false.
Proof.
  unfold String.ltb.
  assert (String.compare a a = Eq) as ->; [|done].
  by apply OrderedTypeEx.String_as_OT.cmp_eq.
Qed.

Lemma sort_index_StronglySorted s :
  NoDup s.*1 →
  StronglySorted (λ x y : string * Z, String.ltb x.1 y.1 = true) (sort_index s).
Proof.
  intros Hnd.
  assert (NoDup (sort_index s).*1) as Hnd' by by rewrite sort_index_Permutation.
  pose proof (stable_sort_Sorted (λ x y : string * Z, String.leb x.1 y.1)
                (λ a b, String.leb_total a.1 b.1) s) as Hs.
  fold (sort_index s) in Hs.
  apply Sorted_StronglySorted;
    [intros a b c; apply string_ltb_trans|].
  induction Hs as [|a t Hs IH Hhd]; [constructor|].
  csimpl in Hnd'. apply NoDup_cons in Hnd' as [Ha Hnd'].
  constructor; [by apply IH|].
  destruct Hhd as [|b t Hab]; constructor.
  apply string_leb_ltb; [done|]. intros Heq. apply Ha.
  csimpl. rewrite Heq. apply list_elem_of_here.
Qed.

(** Sorting by key forgets the order the entries came in. *)
Lemma sort_index_Permutation_eq s s' :
  s ≡ₚ s' → NoDup s.*1 → sort_index s = sort_index s'.
Proof.
  intros H Hnd.
  apply (StronglySorted_unique_strong
           (λ x y : string * Z, String.ltb x.1 y.1 = true)).
  - intros x y _ _ Hxy Hyx. exfalso.
    pose proof (string_ltb_trans _ _ _ Hxy Hyx) as Hxx.
    by rewrite string_ltb_irrefl in Hxx.
  - by apply sort_index_StronglySorted.
  - apply sort_index_StronglySorted. by rewrite <- H.
  - by rewrite !sort_index_Permutation.
Qed.

Lemma month_table_of_Permutation column column' :
  column ≡ₚ column' →
  sort_index (value_counts column) = sort_index (value_counts column').
Proof.
  intros H. apply sort_index_Permutation_eq.
  - unfold value_counts.
    rewrite !sorted_by_value_reverse_Permutation. by apply tally_Permutation.
  - unfold value_counts. rewrite sorted_by_value_reverse_Permutation.
    rewrite tally_keys. apply NoDup_first_seen.
Qed.

(** X9: the monthly trend counter does not depend on the order of the
    records: on a reordered record list it builds the same two tables,
    entry for entry, or fails in the same way. *)
Theorem seasonal_trends_analysis_Permutation self issues issues' :
  issues ≡ₚ issues' →
  seasonal_trends_analysis self issues = seasonal_trends_analysis self issues'.
Proof.
  intros H. unfold seasonal_trends_analysis, DataFrame.
  assert (∀ f, month_column f issues ≡ₚ month_column f issues') as Hcol
    by (intros f; unfold month_column; by rewrite H).
  rewrite (Permutation_length (Hcol created_date)),
          (Permutation_length (Hcol updated_date)).
  case_decide; [|done]. simpl.
  by rewrite (month_table_of_Permutation _ _ (Hcol created_date)),
             (month_table_of_Permutation _ _ (Hcol updated_date)).
Qed.

Lemma seasonal_trends_analysis_Permutation_three :
  three_months ≡ₚ reverse three_months ∧
  seasonal_trends_analysis (mkAnalyzer None) three_months
  = seasonal_trends_analysis (mkAnalyzer None) (reverse three_months).
Proof.
  assert (three_months ≡ₚ reverse three_months) as H
    by (symmetry; apply reverse_Permutation).
  split; [exact H|].
  exact (seasonal_trends_analysis_Permutation (mkAnalyzer None) _ _ H).
Defined.

(** ** Totals of the counting loops *)

Lemma sum_values_dict_set (d : dict Z) k v :
  sum_Z (dict_set d k v).*2 = sum_Z d.*2 - default 0 (dict_get d k) + v.
Proof.
  induction d as [|[k0 v0] d IH]; csimpl.
  - rewrite sum_Z_cons. unfold sum_Z. simpl. lia.
  - destruct (decide (k = k0)) as [->|Hk]; csimpl; rewrite !sum_Z_cons.
    + lia.
    + rewrite IH. lia.
Qed.

Lemma sum_values_count_fold ps : ∀ d,
  sum_Z (foldl count_step d ps).*2 = sum_Z d.*2 + len ps.
Proof.
  unfold len. induction ps as [|[k u] ps IH]; intros d; cbn [foldl].
  - simpl. lia.
  - rewrite IH.
    assert (sum_Z (count_step d (k, u)).*2 = sum_Z d.*2 + 1) as ->.
    { unfold count_step, upsert_step, upsert. simpl.
      rewrite sum_values_dict_set. lia. }
    simpl length. lia.
Qed.

(** Every key is counted exactly once. *)
Lemma sum_values_tally ks : sum_Z (tally ks).*2 = len ks.
Proof.
  rewrite tally_ticks, sum_values_count_fold. unfold ticks, len.
  rewrite length_fmap. done.
Qed.

Lemma tally_values_positive ks : Forall (λ n, 1 <= n) (tally ks).*2.
Proof.
  apply Forall_forall. intros n (p & -> & Hp)%list_elem_of_fmap.
  destruct p as [k n]. apply elem_of_tally in Hp as [Hk ->].
  apply occurrences_pos in Hk. simpl. lia.
Qed.

Lemma length_month_column (f : Issue → option datetime.t) issues :
  length (month_column f issues)
  = length (filter (λ issue, is_Some (f issue)) issues).
Proof.
  unfold month_column. induction issues as [|i issues IH]; [done|].
  csimpl. rewrite filter_cons. destruct (f i) eqn:E.
  - rewrite decide_True by done. simpl. by rewrite IH.
  - rewrite decide_False by (by intros [? ?]). done.
Qed.

(** X10: in the trend chart every record with a creation date is counted in
    exactly one month of the first series and every record with an update
    date in exactly one month of the second: each series sums to the
    number of such records, the two sums are equal, and no month is shown
    with a count below one. *)
Theorem seasonal_trends_analysis_totals self issues created closed :
  seasonal_trends_analysis self issues = Return (created, closed) →
  sum_Z created.*2
  = len (filter (λ issue, is_Some (created_date issue)) issues) ∧
  sum_Z closed.*2
  = len (filter (λ issue, is_Some (updated_date issue)) issues) ∧
  sum_Z created.*2 = sum_Z closed.*2 ∧
  Forall (λ n, 1 <= n) created.*2 ∧
  Forall (λ n, 1 <= n) closed.*2.
Proof.
  unfold seasonal_trends_analysis, DataFrame.
  case_decide as Hlen; [|done]. simpl. intros [= <- <-].
  assert (∀ col, sort_index (value_counts col) ≡ₚ tally col) as Hperm.
  { intros col. unfold value_counts.
    by rewrite sort_index_Permutation, sorted_by_value_reverse_Permutation. }
  assert (∀ col, sum_Z (sort_index (value_counts col)).*2 = len col) as Hsum.
  { intros col. rewrite <- sum_values_tally.
    apply sum_Z_Permutation. by rewrite Hperm. }
  assert (∀ col, Forall (λ n, 1 <= n) (sort_index (value_counts col)).*2)
    as Hpos.
  { intros col. rewrite Hperm. apply tally_values_positive. }
  rewrite !Hsum. unfold len in *. rewrite <- !length_month_column.
  split_and!; [done|done|by rewrite Hlen|apply Hpos|apply Hpos].
Qed.

Lemma seasonal_trends_analysis_totals_three :
  seasonal_trends_analysis (mkAnalyzer None) three_months
  = Return ([("2024-01", 1); ("2024-02", 2)], [("2024-02", 1); ("2024-03", 2)])
  ∧
  (sum_Z [("2024-01", 1); ("2024-02", 2)].*2
   = len (filter (λ issue, is_Some (created_date issue)) three_months) ∧
   sum_Z [("2024-02", 1); ("2024-03", 2)].*2
   = len (filter (λ issue, is_Some (updated_date issue)) three_months) ∧
   sum_Z [("2024-01", 1); ("2024-02", 2)].*2
   = sum_Z [("2024-02", 1); ("2024-03", 2)].*2 ∧
   Forall (λ n, 1 <= n) [("2024-01", 1); ("2024-02", 2)].*2 ∧
   Forall (λ n, 1 <= n) [("2024-02", 1); ("2024-03", 2)].*2).
Proof.
  split; [reflexivity|].
  apply (seasonal_trends_analysis_totals (mkAnalyzer None) three_months).
  reflexivity.
Defined.

(** X11: in the bottleneck chart the counts sum to the number of label
    listings of the records above the mean, no bar has a count below one,
    and no bar is higher than the number of listings. *)
Theorem bottleneck_analysis_totals self issues ls counts :
  bottleneck_analysis self issues = Return (ls, counts) →
  ∃ avg,
    average_duration issues = Return avg ∧
    let seen := filter (is_bottleneck avg) issues ≫= labels in
    sum_Z counts = len seen ∧
    Forall (λ n, 1 <= n <= len seen) counts.
Proof.
  unfold bottleneck_analysis, bottleneck_counts.
  destruct (average_duration issues) as [avg|] eqn:Eavg; [|done]. simpl.
  rewrite select_bottlenecks_eq. case_decide; [|done]. simpl.
  intros (_ & -> & ->)%unzip_items_Return.
  exists avg. split; [done|]. cbn zeta. rewrite count_labels_tally.
  set (seen := filter (is_bottleneck avg) issues ≫= labels).
  assert (sum_Z (sorted_by_value_reverse (tally seen)).*2 = len seen) as Hsum.
  { rewrite <- sum_values_tally. apply sum_Z_Permutation.
    by rewrite sorted_by_value_reverse_Permutation. }
  split; [done|].
  apply Forall_forall. intros n Hn.
  rewrite sorted_by_value_reverse_Permutation in Hn.
  apply list_elem_of_fmap in Hn as ([k n'] & -> & Hp).
  apply elem_of_tally in Hp as [Hk ->]. simpl.
  apply occurrences_pos in Hk. split; [lia|].
  unfold occurrences, len. pose proof (length_filter (λ k', k' = k) seen). lia.
Qed.

Lemma bottleneck_analysis_totals_scenario_C :
  bottleneck_analysis (mkAnalyzer None) scenario_C = Return (["B"], [1]) ∧
  ∃ avg,
    average_duration scenario_C = Return avg ∧
    let seen := filter (is_bottleneck avg) scenario_C ≫= labels in
    sum_Z [1] = len seen ∧
    Forall (λ n, 1 <= n <= len seen) [1].
Proof.
  split; [reflexivity|].
  apply (bottleneck_analysis_totals (mkAnalyzer None) scenario_C ["B"] [1]).
  reflexivity.
Defined.

(** ** The records above the mean *)








(** ** Reordered records: the two bar charts *)

Lemma average_duration_Permutation issues issues' :
  issues ≡ₚ issues' → average_duration issues = average_duration issues'.
Proof.
  intros H. rewrite !average_duration_unfold. f_equal.
  - apply sum_Z_Permutation. unfold present_durations. by rewrite H.
  - by apply len_Permutation.
Qed.

Lemma zip_fmap_diag {A B : Type} (g : A → B) (l : list A) :
  zip l (g <$> l) = (λ x, (x, g x)) <$> l.
Proof. induction l as [|x l IH]; csimpl; [done|]. by rewrite IH. Qed.

(** X13: the bottleneck detector does not depend on the order of the
    records, up to the order of bars of equal height: on a reordered
    record list it fails with the same exception, or shows the same
    sequence of counts over the same labels, each label with the same
    count. *)
Theorem bottleneck_analysis_Permutation self issues issues' :
  issues ≡ₚ issues' →
  match bottleneck_analysis self issues, bottleneck_analysis self issues' with
  | Return (ls, counts), Return (ls', counts') =>
      counts = counts' ∧ zip ls counts ≡ₚ zip ls' counts'
  | Raise e, Raise e' => e = e'
  | _, _ => False
  end.
Proof.
  intros H. unfold bottleneck_analysis, bottleneck_counts.
  rewrite <- (average_duration_Permutation issues issues') by done.
  destruct (average_duration issues) as [avg|e]; [|done]. simpl.
  rewrite !select_bottlenecks_eq.
  destruct (decide (Forall _ issues)) as [Hd|Hd];
    destruct (decide (Forall _ issues')) as [Hd'|Hd'];
    [|by rewrite <- H in Hd'|by rewrite H in Hd|done].
  simpl. rewrite !count_labels_tally.
  set (T := tally (filter (is_bottleneck avg) issues ≫= labels)).
  set (T' := tally (filter (is_bottleneck avg) issues' ≫= labels)).
  assert (T ≡ₚ T') as HT by (apply tally_Permutation; by rewrite H).
  assert (sorted_by_value_reverse T ≡ₚ sorted_by_value_reverse T') as Hout
    by by rewrite !sorted_by_value_reverse_Permutation.
  destruct (sorted_by_value_reverse T) as [|p out] eqn:E;
    destruct (sorted_by_value_reverse T') as [|p' out'] eqn:E';
    cbn [unzip_items].
  - done.
  - by apply Permutation_nil_cons in Hout.
  - symmetry in Hout. by apply Permutation_nil_cons in Hout.
  - rewrite !zip_fst_snd_dict. split; [|done].
    rewrite <- E, <- E' in *.
    apply (StronglySorted_unique_strong (λ m n : Z, n <= m)).
    + intros; lia.
    + apply sorted_by_value_reverse_descending.
    + apply sorted_by_value_reverse_descending.
    + by rewrite Hout.
Qed.

Lemma bottleneck_analysis_Permutation_scenario_C :
  scenario_C ≡ₚ reverse scenario_C ∧
  match bottleneck_analysis (mkAnalyzer None) scenario_C,
        bottleneck_analysis (mkAnalyzer None) (reverse scenario_C) with
  | Return (ls, counts), Return (ls', counts') =>
      counts = counts' ∧ zip ls counts ≡ₚ zip ls' counts'
  | Raise e, Raise e' => e = e'
  | _, _ => False
  end.
Proof.
  assert (scenario_C ≡ₚ reverse scenario_C) as H
    by (symmetry; apply reverse_Permutation).
  split; [exact H|].
  exact (bottleneck_analysis_Permutation (mkAnalyzer None) _ _ H).
Defined.

Lemma filter_by_label_Permutation self issues issues' :
  issues ≡ₚ issues' → filter_by_label self issues ≡ₚ filter_by_label self issues'.
Proof.
  intros H. unfold filter_by_label. destruct (label_filter self); [|done].
  case_decide; [done|]. by rewrite H.
Qed.

Lemma label_duration_pairs_Permutation issues issues' :
  issues ≡ₚ issues' → label_duration_pairs issues ≡ₚ label_duration_pairs issues'.
Proof. intros H. unfold label_duration_pairs. by rewrite H. Qed.

Lemma mean_values_Permutation l (ps ps' : list (string * Z)) :
  ps ≡ₚ ps' → mean (values_of l ps) = mean (values_of l ps').
Proof.
  intros H. assert (values_of l ps ≡ₚ values_of l ps') as Hv
    by (unfold values_of; by rewrite H).
  unfold mean. by rewrite (sum_Z_Permutation _ _ Hv), (len_Permutation _ _ Hv).
Qed.

(** The label-duration aggregator in closed form. *)
Lemma issue_lifecycle_visualization_eq self issues :
  issue_lifecycle_visualization self issues
  = let part := filter_by_label self issues in
    let ks := first_seen (part ≫= labels) in
    if decide (Forall dated_if_labelled part)
    then if decide (part ≫= labels = [])
         then Raise ValueError
         else Return (ks, (λ l, mean (values_of l (label_duration_pairs part)))
                            <$> ks)
    else Raise AttributeError.
Proof.
  cbn zeta.
  destruct (issue_lifecycle_visualization_cases self issues)
    as [[Hnd H]|[(Hd & Hnil & H)|(Hd & Hne & [[ls avgs] H])]].
  - by rewrite decide_False.
  - by rewrite decide_True, decide_True.
  - rewrite decide_True, decide_False by done. rewrite H.
    by apply issue_lifecycle_visualization_Return in H as (_ & -> & _ & ->).
Qed.

(** X14: the label-duration aggregator does not depend on the order of the
    records, up to the order of its bars: on a reordered record list it
    fails with the same exception, or shows the same labels, each with the
    same mean. *)
Theorem issue_lifecycle_visualization_Permutation self issues issues' :
  issues ≡ₚ issues' →
  match issue_lifecycle_visualization self issues,
        issue_lifecycle_visualization self issues' with
  | Return (ls, avgs), Return (ls', avgs') => zip ls avgs ≡ₚ zip ls' avgs'
  | Raise e, Raise e' => e = e'
  | _, _ => False
  end.
Proof.
  intros H.
  pose proof (filter_by_label_Permutation self _ _ H) as Hpart.
  assert (filter_by_label self issues ≫= labels
          ≡ₚ filter_by_label self issues' ≫= labels) as Hlabels
    by by rewrite Hpart.
  rewrite !issue_lifecycle_visualization_eq. cbn zeta.
  destruct (decide (Forall _ (filter_by_label self issues))) as [Hd|Hd];
    destruct (decide (Forall _ (filter_by_label self issues'))) as [Hd'|Hd'];
    [|by rewrite <- Hpart in Hd'|by rewrite Hpart in Hd|done].
  destruct (decide (filter_by_label self issues ≫= labels = [])) as [Hn|Hn];
    destruct (decide (filter_by_label self issues' ≫= labels = []))
      as [Hn'|Hn'].
  - done.
  - rewrite Hn in Hlabels. by apply Permutation_nil in Hlabels.
  - rewrite Hn' in Hlabels. by apply Permutation_nil_r in Hlabels.
  - rewrite !zip_fmap_diag.
    set (ks := first_seen (filter_by_label self issues ≫= labels)).
    set (ks' := first_seen (filter_by_label self issues' ≫= labels)).
    assert (ks ≡ₚ ks') as Hks.
    { apply NoDup_Permutation; [apply NoDup_first_seen..|].
      intros k. unfold ks, ks'. rewrite !elem_of_first_seen.
      by rewrite Hlabels. }
    rewrite Hks.
    erewrite list_fmap_ext; [reflexivity|]. intros _ l _. simpl. f_equal.
    by apply mean_values_Permutation, label_duration_pairs_Permutation.
Qed.

Lemma issue_lifecycle_visualization_Permutation_scenario_C :
  scenario_C ≡ₚ reverse scenario_C ∧
  match issue_lifecycle_visualization (mkAnalyzer None) scenario_C,
        issue_lifecycle_visualization (mkAnalyzer None) (reverse scenario_C)
  with
  | Return (ls, avgs), Return (ls', avgs') => zip ls avgs ≡ₚ zip ls' avgs'
  | Raise e, Raise e' => e = e'
  | _, _ => False
  end.
Proof.
  assert (scenario_C ≡ₚ reverse scenario_C) as H
    by (symmetry; apply reverse_Permutation).
  split; [exact H|].
  exact (issue_lifecycle_visualization_Permutation (mkAnalyzer None) _ _ H).
Defined.

(** ** The deriver and the list of references *)

(** X15: what the duration deriver leaves in the heap depends only on which
    objects the list refers to, not on their order nor on how often one is
    listed; and deriving over one list and then over another is deriving
    over both at once. *)
Theorem calculate_issue_durations_listing self σ issues issues' :
  ((∀ l, l ∈ issues ↔ l ∈ issues') →
   calculate_issue_durations self σ issues
   = calculate_issue_durations self σ issues') ∧
  calculate_issue_durations self
    (calculate_issue_durations self σ issues) issues'
  = calculate_issue_durations self σ (issues ++ issues').
Proof.
  split.
  - intros Hsame. apply map_eq. intros l. rewrite !lookup_calculate.
    destruct (decide (l ∈ issues)) as [Hl|Hl].
    + rewrite decide_True; [done|]. by apply Hsame.
    + rewrite decide_False; [done|]. by rewrite <- Hsame.
  - apply map_eq. intros l. rewrite !lookup_calculate.
    destruct (decide (l ∈ issues)) as [Hl|Hl];
      destruct (decide (l ∈ issues')) as [Hl'|Hl'].
    + rewrite decide_True by (apply elem_of_app; by left).
      destruct (σ !! l); simpl; [|done]. by rewrite derive_duration_idemp.
    + rewrite decide_True by (apply elem_of_app; by left). done.
    + rewrite decide_True by (apply elem_of_app; by right). done.
    + rewrite decide_False; [done|]. rewrite elem_of_app. tauto.
Qed.

(** ** Records without a duration in a run *)

Lemma elem_of_load σ issues l issue :
  l ∈ issues → σ !! l = Some issue → issue ∈ load σ issues.
Proof.
  intros Hl Hσ. unfold load. apply list_elem_of_omap. eauto.
Qed.

Lemma derive_duration_incomplete issue :
  created_date issue = None ∨ updated_date issue = None →
  derive_duration issue = issue.
Proof.
  unfold derive_duration. intros [-> | ->]; [done|].
  by destruct (created_date issue).
Qed.

(** X16: a run over a list that refers to a record which lists a label, has
    no duration yet and misses a timestamp, and which the label filter lets
    through, shows no chart at all: it ends in [AttributeError] in the
    first aggregator, whatever the other records are. *)
Theorem run_stops_on_undated_label self σ issues l issue :
  l ∈ issues →
  σ !! l = Some issue →
  labels issue ≠ [] →
  duration_days issue = None →
  created_date issue = None ∨ updated_date issue = None →
  issue ∈ filter_by_label self [issue] →
  (run self σ issues).2 = mkTrace [] (Some AttributeError).
Proof.
  intros Hl Hσ Hlab Hdur Hmiss Hpass.
  unfold run; cbn [snd]. rewrite load_calculate.
  set (objs := derive_duration <$> load σ issues).
  assert (issue ∈ objs) as Hin.
  { unfold objs. apply list_elem_of_fmap. exists issue. split.
    - by rewrite derive_duration_incomplete.
    - by eapply elem_of_load. }
  assert (issue ∈ filter_by_label self objs) as Hpart.
  { revert Hpass. unfold filter_by_label.
    destruct (label_filter self) as [f|]; [|done].
    case_decide; [done|].
    rewrite !list_elem_of_filter. intros [Hf _]. done. }
  destruct (issue_lifecycle_visualization_cases self objs)
    as [[_ H]|[(Hd & _ & _)|(Hd & _ & _)]]; [by rewrite H|..];
    exfalso; eapply Forall_forall in Hd; try exact Hpart;
    destruct (Hd Hlab) as [d Hd']; congruence.
Qed.

Lemma run_stops_on_undated_label_stale :
  (1%positive ∈ [1%positive] ∧ stale_heap !! 1%positive = Some stale ∧
   labels stale ≠ [] ∧ duration_days stale = None ∧
   (created_date stale = None ∨ updated_date stale = None) ∧
   stale ∈ filter_by_label (mkAnalyzer None) [stale]) ∧
  (run (mkAnalyzer None) stale_heap [1%positive]).2
  = mkTrace [] (Some AttributeError).
Proof.
  assert (stale ∈ filter_by_label (mkAnalyzer None) [stale]) as Hpass
    by apply list_elem_of_here.
  split.
  - split_and!; [apply list_elem_of_here|reflexivity|discriminate
                |reflexivity|by right|exact Hpass].
  - apply (run_stops_on_undated_label (mkAnalyzer None) stale_heap
             [1%positive] 1%positive stale);
      [apply list_elem_of_here|reflexivity|discriminate|reflexivity
      |by right|exact Hpass].
Defined.
